(** * Orthodromic / loxodromic path visualizer: geodesy, path sampling and
      view state

    A shallow embedding of the TypeScript sources:
    - [utils/geo] ([calculateOrthodromicDistance],
      [calculateLoxodromicDistance], [deg2rad]),
    - [components/GlobeVisualization.tsx] (rhumb-line sampling, endpoint
      visibility, drag and zoom handlers, the points effect),
    - [components/MercatorVisualization.tsx] (auto-fit, reset, zoom extent),
    - [services/geminiService.ts] and [App.tsx] ([handleVisualize]).

    Numbers.  A JavaScript [number] is read as a real number and every
    [Math] function as the real function it approximates: the development
    describes the exact-arithmetic meaning of the code.  Rounding, [NaN] and
    the infinities are outside this reading; where a statement would depend
    on them (a latitude of exactly +-90 degrees fed to [Math.tan]) it is
    restricted to latitudes strictly inside (-90, 90).  Where the code
    itself runs into [NaN] (the sampled rhumb line on the parallel of the
    south pole) the loop body is embedded a second time, in [IEEE], over
    numbers that carry the special values. *)

From Stdlib Require Import Reals ZArith Lra Lia List Bool String Ascii.
Import ListNotations.

Local Open Scope R_scope.

(** * Part I: the program *)

(** ** The [Math] object *)

Module Math.

Definition abs (x : R) : R := Rabs x.
Definition log (x : R) : R := ln x.
Definition max (x y : R) : R := Rmax x y.
Definition min (x y : R) : R := Rmin x y.

(** [Math.atan2(y, x)]: the angle of the point (x, y), in (-PI, PI]. *)
Definition atan2 (y x : R) : R :=
  if Rlt_dec 0 x then atan (y / x)
  else if Rlt_dec x 0 then
    (if Rle_dec 0 y then atan (y / x) + PI else atan (y / x) - PI)
  else if Rlt_dec 0 y then PI / 2
  else if Rlt_dec y 0 then - (PI / 2)
  else 0.

(** [Math.round(x)]: the nearest integer, halves rounded up. *)
Definition round (x : R) : R := IZR (Int_part (x + / 2)).

End Math.

(** ** types.ts *)

Record Coordinates : Type := mkCoordinates { lat : R; lon : R }.

Record LocationPoint : Type := mkLocationPoint
  { name : string; coords : Coordinates }.

Inductive PathType : Type := orthodromic | loxodromic.

(** The documented range of a [Coordinates] value. *)
Definition valid (p : Coordinates) : Prop :=
  (-90 <= lat p <= 90) /\ (-180 <= lon p <= 180).

(** A latitude strictly between the poles. *)
Definition nonpolar (p : Coordinates) : Prop := -90 < lat p < 90.

(** ** utils/geo *)

Definition deg2rad (deg : R) : R := deg * (PI / 180).

(** In exact arithmetic [a] lies in [0, 1].  In floating point [a] can
    round to just above 1 for points that are nearly antipodal, and
    [Math.sqrt(1 - a)] is then [NaN]; the real-number reading does not show
    this. *)
Definition calculateOrthodromicDistance (p1 p2 : Coordinates) : R :=
  let R_ := 6371 in
  let dLat := deg2rad (lat p2 - lat p1) in
  let dLon := deg2rad (lon p2 - lon p1) in
  let a :=
    sin (dLat / 2) * sin (dLat / 2) +
    cos (deg2rad (lat p1)) * cos (deg2rad (lat p2)) *
    sin (dLon / 2) * sin (dLon / 2) in
  let c := 2 * Math.atan2 (sqrt a) (sqrt (1 - a)) in
  let d := R_ * c in
  d.

Definition calculateLoxodromicDistance (p1 p2 : Coordinates) : R :=
  let R_ := 6371 in
  let phi1 := deg2rad (lat p1) in
  let phi2 := deg2rad (lat p2) in
  let deltaPhi := phi2 - phi1 in
  let deltaLon0 := deg2rad (lon p2 - lon p1) in
  let deltaLon :=
    if Rgt_dec (Math.abs deltaLon0) PI
    then (if Rgt_dec deltaLon0 0
          then - (2 * PI - deltaLon0)
          else 2 * PI + deltaLon0)
    else deltaLon0 in
  let deltaPsi :=
    Math.log (tan (phi2 / 2 + PI / 4) / tan (phi1 / 2 + PI / 4)) in
  let q :=
    if Rgt_dec (Math.abs deltaPsi) (10 / 10 ^ 12)
    then deltaPhi / deltaPsi
    else cos phi1 in
  let d := sqrt (deltaPhi * deltaPhi + q * q * deltaLon * deltaLon) * R_ in
  d.

(** ** GlobeVisualization.tsx: sampling the rhumb line

    The body of the [for] loop of the points effect: sample [i] of the
    rhumb line from [start] to [end_], as a [lon, lat] pair in degrees. *)

Definition numPoints : nat := 50.

Definition loxodromicSample (start end_ : Coordinates) (i : nat) : R * R :=
  let lat1 := (lat start * PI) / 180 in
  let lat2 := (lat end_ * PI) / 180 in
  let lon1 := (lon start * PI) / 180 in
  let lon2_0 := (lon end_ * PI) / 180 in
  let lon2 :=
    if Rgt_dec (Math.abs (lon2_0 - lon1)) PI
    then lon2_0 + (if Rgt_dec lon2_0 lon1 then -2 * PI else 2 * PI)
    else lon2_0 in
  let dPsi :=
    Math.log (tan (lat2 / 2 + PI / 4) / tan (lat1 / 2 + PI / 4)) in
  let f := INR i / INR numPoints in
  let lat_i := lat1 + (lat2 - lat1) * f in
  let lon_i :=
    if Rlt_dec (Math.abs dPsi) (1 / 10 ^ 10)
    then lon1 + (lon2 - lon1) * f
    else
      let psi_i := Math.log (tan (lat_i / 2 + PI / 4)) in
      let psi1 := Math.log (tan (lat1 / 2 + PI / 4)) in
      lon1 + (lon2 - lon1) * (psi_i - psi1) / dPsi in
  ((lon_i * 180) / PI, (lat_i * 180) / PI).

(** The loop [for (let i = 0; i <= numPoints; i++) coords.push(...)], with
    [n] iterations left, the counter at [i] and the array built so far. *)
Fixpoint loxodromicLoop (start end_ : Coordinates) (n i : nat)
    (coords : list (R * R)) : list (R * R) :=
  match n with
  | O => coords
  | S n' =>
      loxodromicLoop start end_ n' (S i)
        (coords ++ [loxodromicSample start end_ i])
  end.

Definition loxodromicCoords (start end_ : Coordinates) : list (R * R) :=
  loxodromicLoop start end_ (S numPoints) 0 [].

(** The coordinates of the [LineString] handed to the path generator. *)
Definition route (pathType : PathType) (start end_ : Coordinates)
  : list (R * R) :=
  match pathType with
  | loxodromic => loxodromicCoords start end_
  | orthodromic => [(lon start, lat start); (lon end_, lat end_)]
  end.

(** Longitude and latitude of the [i]-th vertex of a path. *)
Definition lonAt (path : list (R * R)) (i : nat) : R :=
  fst (nth i path (0, 0)).
Definition latAt (path : list (R * R)) (i : nat) : R :=
  snd (nth i path (0, 0)).

(** ** GlobeVisualization.tsx: the loop body with the special values

    The real numbers above have neither [Infinity] nor [NaN].  Where the
    loop body divides zero by zero JavaScript continues with [NaN]; to follow
    the code there, the same body is written a second time over numbers that
    carry the special values.  Finite results are exact, as before, and zero
    has no sign. *)

Module IEEE.

Inductive number : Type :=
| Fin (r : R)
| PInf
| NInf
| NaN.

(** Unary minus. *)
Definition neg (a : number) : number :=
  match a with
  | Fin x => Fin (- x)
  | PInf => NInf
  | NInf => PInf
  | NaN => NaN
  end.

(** [a + b]: opposite infinities have no sum. *)
Definition add (a b : number) : number :=
  match a, b with
  | NaN, _ | _, NaN => NaN
  | Fin x, Fin y => Fin (x + y)
  | PInf, NInf | NInf, PInf => NaN
  | PInf, _ | _, PInf => PInf
  | NInf, _ | _, NInf => NInf
  end.

(** [a - b]. *)
Definition sub (a b : number) : number := add a (neg b).

(** An infinity of the sign of [x]; zero times an infinity is [NaN]. *)
Definition signed (x : R) (pos neg_ : number) : number :=
  if Rlt_dec 0 x then pos else if Rlt_dec x 0 then neg_ else NaN.

(** [a * b]. *)
Definition mul (a b : number) : number :=
  match a, b with
  | NaN, _ | _, NaN => NaN
  | Fin x, Fin y => Fin (x * y)
  | Fin x, PInf | PInf, Fin x => signed x PInf NInf
  | Fin x, NInf | NInf, Fin x => signed x NInf PInf
  | PInf, PInf | NInf, NInf => PInf
  | PInf, NInf | NInf, PInf => NInf
  end.

(** [a / b]: a non-zero number over zero is an infinity (of the sign of the
    numerator, zero being unsigned), zero over zero and an infinity over an
    infinity are [NaN]. *)
Definition div (a b : number) : number :=
  match a, b with
  | NaN, _ | _, NaN => NaN
  | Fin x, Fin y =>
      if Req_dec_T y 0 then signed x PInf NInf else Fin (x / y)
  | Fin _, PInf | Fin _, NInf => Fin 0
  | PInf, Fin y => if Rlt_dec y 0 then NInf else PInf
  | NInf, Fin y => if Rlt_dec y 0 then PInf else NInf
  | PInf, PInf | PInf, NInf | NInf, PInf | NInf, NInf => NaN
  end.

(** [a < b] and [a > b]: false as soon as one side is [NaN]. *)
Definition lt (a b : number) : bool :=
  match a, b with
  | NaN, _ | _, NaN => false
  | Fin x, Fin y => if Rlt_dec x y then true else false
  | NInf, Fin _ | NInf, PInf | Fin _, PInf => true
  | _, _ => false
  end.

Definition gt (a b : number) : bool := lt b a.

(** [Math.abs]. *)
Definition abs (a : number) : number :=
  match a with
  | Fin x => Fin (Rabs x)
  | PInf | NInf => PInf
  | NaN => NaN
  end.

(** [Math.log]: minus infinity at zero, [NaN] below it. *)
Definition log (a : number) : number :=
  match a with
  | Fin x =>
      if Rlt_dec 0 x then Fin (ln x)
      else if Req_dec_T x 0 then NInf else NaN
  | PInf => PInf
  | NInf | NaN => NaN
  end.

(** [Math.tan].  At an odd multiple of pi/2 the tangent has no value; no
    floating-point number is such an argument, and no value is given there
    ([NaN]). *)
Definition tan (a : number) : number :=
  match a with
  | Fin x => if Req_dec_T (cos x) 0 then NaN else Fin (Rtrigo1.tan x)
  | PInf | NInf | NaN => NaN
  end.

(** [Math.PI]. *)
Definition PI : number := Fin Rtrigo1.PI.

(** The body of the [for] loop of the points effect, line by line as in
    [loxodromicSample] above. *)
Definition loxodromicSample (start end_ : Coordinates) (i : nat)
  : number * number :=
  let lat1 := div (mul (Fin (lat start)) PI) (Fin 180) in
  let lat2 := div (mul (Fin (lat end_)) PI) (Fin 180) in
  let lon1 := div (mul (Fin (lon start)) PI) (Fin 180) in
  let lon2_0 := div (mul (Fin (lon end_)) PI) (Fin 180) in
  let lon2 :=
    if gt (abs (sub lon2_0 lon1)) PI
    then add lon2_0
           (if gt lon2_0 lon1 then mul (Fin (-2)) PI else mul (Fin 2) PI)
    else lon2_0 in
  let dPsi :=
    log (div (tan (add (div lat2 (Fin 2)) (div PI (Fin 4))))
             (tan (add (div lat1 (Fin 2)) (div PI (Fin 4))))) in
  let f := div (Fin (INR i)) (Fin (INR numPoints)) in
  let lat_i := add lat1 (mul (sub lat2 lat1) f) in
  let lon_i :=
    if lt (abs dPsi) (Fin (1 / 10 ^ 10))
    then add lon1 (mul (sub lon2 lon1) f)
    else
      let psi_i := log (tan (add (div lat_i (Fin 2)) (div PI (Fin 4)))) in
      let psi1 := log (tan (add (div lat1 (Fin 2)) (div PI (Fin 4)))) in
      add lon1 (div (mul (sub lon2 lon1) (sub psi_i psi1)) dPsi) in
  (div (mul lon_i (Fin 180)) PI, div (mul lat_i (Fin 180)) PI).

End IEEE.

(** ** The d3 functions the components call

    d3 is a dependency of the repository, not part of its sources. *)

Module d3.

Definition radians : R := PI / 180.
Definition tau : R := 2 * PI.

(** Modelled from the spec: [d3.geoDistance(a, b)], the angular
    (great-circle) distance in radians between two [lon, lat] points given in
    degrees, computed as d3-geo computes the length of the arc from [a] to
    [b]: the angle between the two unit vectors, from their cross and dot
    products. *)
Definition geoDistance (a b : R * R) : R :=
  let lambda0 := fst a * radians in
  let phi0 := snd a * radians in
  let sinPhi0 := sin phi0 in
  let cosPhi0 := cos phi0 in
  let lambda := fst b * radians in
  let phi := snd b * radians in
  let sinPhi := sin phi in
  let cosPhi := cos phi in
  let delta := Math.abs (lambda - lambda0) in
  let cosDelta := cos delta in
  let sinDelta := sin delta in
  let x := cosPhi * sinDelta in
  let y := cosPhi0 * sinPhi - sinPhi0 * cosPhi * cosDelta in
  let z := sinPhi0 * sinPhi + cosPhi0 * cosPhi * cosDelta in
  Math.atan2 (sqrt (x * x + y * y)) z.

(** Modelled from the spec: the orthographic projection object, carrying
    [{rotation: (lambda, phi, gamma), scale, translate}]; angles in degrees
    as [projection.rotate()] returns them. *)
Record GeoProjection : Type := mkGeoProjection
  { scale : R; rotate : R * R * R; translate : R * R }.

(** Modelled from the spec: the first step of the rotation, a shift of the
    longitude, brought back into [-PI, PI]. *)
Definition rotationLambda (deltaLambda : R) (p : R * R) : R * R :=
  let lambda := fst p + deltaLambda in
  ((if Rgt_dec (Math.abs lambda) PI
    then lambda - Math.round (lambda / tau) * tau
    else lambda),
   snd p).

(** Modelled from the spec: the second step, the rotation by the pitch
    [deltaPhi] and the roll [deltaGamma], on Cartesian coordinates. *)
Definition rotationPhiGamma (deltaPhi deltaGamma : R) (p : R * R) : R * R :=
  let cosDeltaPhi := cos deltaPhi in
  let sinDeltaPhi := sin deltaPhi in
  let cosDeltaGamma := cos deltaGamma in
  let sinDeltaGamma := sin deltaGamma in
  let lambda := fst p in
  let phi := snd p in
  let cosPhi := cos phi in
  let x := cos lambda * cosPhi in
  let y := sin lambda * cosPhi in
  let z := sin phi in
  let k := z * cosDeltaPhi + x * sinDeltaPhi in
  (Math.atan2 (y * cosDeltaGamma - k * sinDeltaGamma)
              (x * cosDeltaPhi - z * sinDeltaPhi),
   asin (k * cosDeltaGamma + y * sinDeltaGamma)).

(** Modelled from the spec: the projection onto the viewing plane. *)
Definition orthographicRaw (p : R * R) : R * R :=
  (cos (snd p) * sin (fst p), sin (snd p)).

(** Modelled from the spec: [projection(point)] for the orthographic
    projection: rotate, project onto the viewing plane, scale, translate
    (the screen's y axis points down). *)
Definition project (P : GeoProjection) (point : R * R) : R * R :=
  let '(r0, r1, r2) := rotate P in
  let rotated :=
    rotationPhiGamma (r1 * radians) (r2 * radians)
      (rotationLambda (r0 * radians)
         (fst point * radians, snd point * radians)) in
  let xy := orthographicRaw rotated in
  (fst (translate P) + scale P * fst xy,
   snd (translate P) - scale P * snd xy).

(** Modelled from the spec: the setters of the projection.
    [projection.rotate([lambda, phi])] with a two-element array leaves the
    roll at 0.  d3 keeps each angle reduced modulo 360 degrees; here the
    angles are kept as given, which differs by full turns only and changes
    nothing that is drawn. *)
Definition setRotate2 (P : GeoProjection) (r : R * R) : GeoProjection :=
  mkGeoProjection (scale P) (fst r, snd r, 0) (translate P).

Definition setRotate3 (P : GeoProjection) (r : R * R * R) : GeoProjection :=
  mkGeoProjection (scale P) r (translate P).

Definition setScale (P : GeoProjection) (s : R) : GeoProjection :=
  mkGeoProjection s (rotate P) (translate P).

(** Modelled from the spec: the pan/zoom transform [(tx, ty, k)] applied
    after the projection; the point (px, py) is drawn at
    (x + k px, y + k py). *)
Record Transform : Type := mkTransform { k : R; x : R; y : R }.

(** Modelled from the spec: the identity view. *)
Definition zoomIdentity : Transform := mkTransform 1 0 0.

(** Modelled from the spec: [transform.translate(tx, ty)],
    [transform.scale(s)] and [transform.invert(p)], which compose and invert
    the affine map above. *)
Definition Transform_translate (t : Transform) (tx ty : R) : Transform :=
  mkTransform (k t) (x t + k t * tx) (y t + k t * ty).

Definition Transform_scale (t : Transform) (s : R) : Transform :=
  mkTransform (k t * s) (x t) (y t).

Definition Transform_invert (t : Transform) (p : R * R) : R * R :=
  ((fst p - x t) / k t, (snd p - y t) / k t).

(** Modelled from the spec: a wheel, pinch or double-click gesture asks for
    the zoom factor to be multiplied by [factor] around the pointer [p]; the
    new factor is kept within the scale extent and the transform is
    recentred on the pointer. *)
Definition zoomGesture (scaleExtent : R * R) (t : Transform) (factor : R)
    (p : R * R) : Transform :=
  let k1 :=
    Math.max (fst scaleExtent) (Math.min (snd scaleExtent) (k t * factor)) in
  let q := Transform_invert t p in
  mkTransform k1 (fst p - fst q * k1) (snd p - snd q * k1).

(** Modelled from the spec: panning mutates the translation of the
    transform and leaves the zoom factor alone. *)
Definition zoomPan (t : Transform) (dx dy : R) : Transform :=
  mkTransform (k t) (x t + dx) (y t + dy).

End d3.

(** ** GlobeVisualization.tsx: the component *)

Module Globe.

(** What the component keeps between events: [projectionRef.current] and
    the zoom transform d3-zoom stores on the [svg] node. *)
Record State : Type := mkState
  { projection : d3.GeoProjection; zoomTransform : d3.Transform }.

Definition sens : R := 0.25.

(** [.scaleExtent([0.8, 10])] *)
Definition scaleExtent : R * R := (0.8, 10).

(** The first effect: [geoOrthographic().scale(min(width, height) / 2.2)
    .center([0, 0]).rotate([0, -20]).translate([width / 2, height / 2])]. *)
Definition init (width height : R) : State :=
  mkState
    (d3.mkGeoProjection (Math.min width height / 2.2) (0, -20, 0)
       (width / 2, height / 2))
    d3.zoomIdentity.

(** The attributes an [.endpoint] circle receives on a redraw. *)
Inductive Display : Type := inline | none.

Record Endpoint : Type := mkEndpoint { cx : R; cy : R; display : Display }.

(** The callback of [.each] in [redrawElements] (and, with the same body,
    in the rotation tween). *)
Definition redrawEndpoint (currentProjection : d3.GeoProjection)
    (d : R * R) : Endpoint :=
  let projected := d3.project currentProjection d in
  let '(r0, r1, _) := d3.rotate currentProjection in
  let gdistance := d3.geoDistance d (- r0, - r1) in
  let isVisible := Rle_dec gdistance (PI / 2) in
  mkEndpoint (fst projected) (snd projected)
    (if isVisible then inline else none).

(** [v || dflt] on numbers: 0 is falsy. *)
Definition orElse (v dflt : R) : R := if Req_dec_T v 0 then dflt else v.

(** The ['drag'] handler. *)
Definition onDrag (st : State) (dx dy : R) : State :=
  let '(r0, r1, _) := d3.rotate (projection st) in
  let k := sens / orElse (d3.scale (projection st)) 1 in
  mkState
    (d3.setRotate2 (projection st) (r0 + dx * k * 100, r1 - dy * k * 100))
    (zoomTransform st).

(** The ['zoom'] handler, called with [event.transform]. *)
Definition onZoom (width height : R) (st : State) (transform : d3.Transform)
  : State :=
  mkState
    (d3.setScale (projection st)
       (Math.min width height / 2.2 * d3.k transform))
    transform.

(** The rotation tween the points effect starts, by its duration (ms) and
    the rotation it ends on. *)
Record RotationTween : Type := mkRotationTween
  { duration : R; targetRotation : R * R * R }.

(** What the points effect leaves on the [svg]: the flight path (if any),
    the data of the endpoint circles, and the view transition it starts (if
    any). *)
Record Scene : Type := mkScene
  { flightPath : option (list (R * R));
    endpoints : list (R * R);
    tween : option RotationTween }.

(** The second effect, run when [points] or [pathType] change.
    [geoInterpolate] stands for [d3.geoInterpolate]. *)
Definition pointsEffect (geoInterpolate : R * R -> R * R -> R -> R * R)
    (st : State) (points : option (Coordinates * Coordinates))
    (pathType : PathType) : Scene :=
  match points with
  | Some (start, end_) =>
      let startLonLat := (lon start, lat start) in
      let endLonLat := (lon end_, lat end_) in
      let center := geoInterpolate startLonLat endLonLat 0.5 in
      let targetRotation := (- fst center, - snd center) in
      let '(_, _, c2) := d3.rotate (projection st) in
      mkScene (Some (route pathType start end_))
        [startLonLat; endLonLat]
        (Some (mkRotationTween 1250
                 (fst targetRotation, snd targetRotation, c2)))
  | None => mkScene None [] None
  end.

(** The events of the component; a tween is taken at its end. *)
Inductive Event : Type :=
  | Drag (dx dy : R)
  | Zoom (factor : R) (p : R * R)
  | Points (points : option (Coordinates * Coordinates)) (pathType : PathType).

Definition step (width height : R)
    (geoInterpolate : R * R -> R * R -> R -> R * R)
    (st : State) (e : Event) : State :=
  match e with
  | Drag dx dy => onDrag st dx dy
  | Zoom factor p =>
      onZoom width height st
        (d3.zoomGesture scaleExtent (zoomTransform st) factor p)
  | Points points pathType =>
      match tween (pointsEffect geoInterpolate st points pathType) with
      | Some tw =>
          mkState (d3.setRotate3 (projection st) (targetRotation tw))
            (zoomTransform st)
      | None => st
      end
  end.

Definition run (width height : R)
    (geoInterpolate : R * R -> R * R -> R -> R * R)
    (events : list Event) : State :=
  fold_left (step width height geoInterpolate) events (init width height).

End Globe.

(** ** MercatorVisualization.tsx: the component *)

Module Mercator.

(** [.scaleExtent([0.8, 18])] *)
Definition scaleExtent : R * R := (0.8, 18).

(** A transition of the zoom transform: [svg.transition().duration(ms)
    .call(zoom.transform, target)]. *)
Record ZoomTransition : Type := mkZoomTransition
  { duration : R; target : d3.Transform }.

(** "Auto-zoom and pan to fit the path".  [projection] stands for the
    Mercator projection at its baseline scale. *)
Definition autoFit (width height : R) (projection : R * R -> R * R)
    (start end_ : Coordinates) : d3.Transform :=
  let startLonLat := (lon start, lat start) in
  let endLonLat := (lon end_, lat end_) in
  let p1 := projection startLonLat in
  let p2 := projection endLonLat in
  let bounds :=
    ((Math.min (fst p1) (fst p2), Math.min (snd p1) (snd p2)),
     (Math.max (fst p1) (fst p2), Math.max (snd p1) (snd p2))) in
  let dx := fst (snd bounds) - fst (fst bounds) in
  let dy := snd (snd bounds) - snd (fst bounds) in
  let x := (fst (fst bounds) + fst (snd bounds)) / 2 in
  let y := (snd (fst bounds) + snd (snd bounds)) / 2 in
  let scale :=
    Math.max 0.8
      (Math.min 18 (0.9 / Math.max (dx / width) (dy / height))) in
  let translate := (width / 2 - scale * x, height / 2 - scale * y) in
  d3.Transform_scale
    (d3.Transform_translate d3.zoomIdentity (fst translate) (snd translate))
    scale.

(** The view transition the second effect starts. *)
Definition pointsEffect (width height : R) (projection : R * R -> R * R)
    (points : option (Coordinates * Coordinates)) : ZoomTransition :=
  match points with
  | Some (start, end_) =>
      mkZoomTransition 1250 (autoFit width height projection start end_)
  | None =>
      (* Reset view if points are cleared *)
      mkZoomTransition 750 d3.zoomIdentity
  end.

(** The events of the component; a transition is taken at its end. *)
Inductive Event : Type :=
  | Zoom (factor : R) (p : R * R)
  | Pan (dx dy : R)
  | Points (points : option (Coordinates * Coordinates)).

Definition step (width height : R) (projection : R * R -> R * R)
    (t : d3.Transform) (e : Event) : d3.Transform :=
  match e with
  | Zoom factor p => d3.zoomGesture scaleExtent t factor p
  | Pan dx dy => d3.zoomPan t dx dy
  | Points points => target (pointsEffect width height projection points)
  end.

Definition run (width height : R) (projection : R * R -> R * R)
    (events : list Event) : d3.Transform :=
  fold_left (step width height projection) events d3.zoomIdentity.

End Mercator.

(** ** services/geminiService.ts and App.tsx *)

Module App.

(** A thrown value: an [Error] with its message, or anything else. *)
Inductive Thrown : Type := ErrorObject (message : string) | OtherValue.

(** How a promise settles. *)
Inductive Settled (A : Type) : Type :=
  | fulfilled (value : A)
  | rejected (reason : Thrown).
Arguments fulfilled {A} value.
Arguments rejected {A} reason.

(** A JSON member as [typeof] sees it. *)
Inductive JsonMember : Type := number (r : R) | notNumber.

(** What happens inside the [try] block of [getCoordinatesForLocation]:
    something throws (the request, [trim] or [JSON.parse]), the reply text
    is empty, or the text parses to an object with these [lat] and [lon]. *)
Inductive Reply : Type :=
  | throws
  | emptyText
  | parsed (lat lon : JsonMember).

Definition quote : string := String "034" EmptyString.

Definition getCoordinatesForLocation (locationName : string) (reply : Reply)
  : Settled (option Coordinates) :=
  match reply with
  | throws =>
      rejected
        (ErrorObject
           ("Could not retrieve coordinates for " ++ quote ++ locationName
            ++ quote ++ "."))
  | emptyText => fulfilled None
  | parsed (number la) (number lo) => fulfilled (Some (mkCoordinates la lo))
  | parsed _ _ => fulfilled None
  end%string.

(** [Promise.all] of two promises: both values, or the rejection that
    comes first ([firstWins] tells whether that is the first promise's when
    both reject). *)
Definition promiseAll {A : Type} (a b : Settled A) (firstWins : bool)
  : Settled (A * A) :=
  match a, b with
  | fulfilled va, fulfilled vb => fulfilled (va, vb)
  | rejected r, fulfilled _ => rejected r
  | fulfilled _, rejected r => rejected r
  | rejected ra, rejected rb => rejected (if firstWins then ra else rb)
  end.

Inductive ViewMode : Type := globe | map.

(** The [useState] cells of [App]. *)
Record State : Type := mkState
  { points : option (LocationPoint * LocationPoint);
    isLoading : bool;
    error : option string;
    viewMode : ViewMode;
    pathType : PathType }.

Definition setPoints (st : State)
    (v : option (LocationPoint * LocationPoint)) : State :=
  mkState v (isLoading st) (error st) (viewMode st) (pathType st).
Definition setIsLoading (st : State) (v : bool) : State :=
  mkState (points st) v (error st) (viewMode st) (pathType st).
Definition setError (st : State) (v : option string) : State :=
  mkState (points st) (isLoading st) v (viewMode st) (pathType st).

(** [!s] on a string: only the empty string is falsy. *)
Definition falsy (s : string) : bool :=
  match s with EmptyString => true | String _ _ => false end.

(** [handleVisualize] up to its [await]; the flag tells whether the
    geocoding calls are started ([false]: the handler has returned). *)
Definition handleVisualize_begin (st : State) (from to : string)
  : State * bool :=
  if falsy from || falsy to
  then (setError st (Some "Please enter both a start and end location."%string),
        false)
  else (setPoints (setError (setIsLoading st true) None) None, true).

(** The [catch] block. *)
Definition catch (st : State) (err : Thrown) : State :=
  let errorMessage :=
    match err with
    | ErrorObject message => message
    | OtherValue => "An unknown error occurred."%string
    end in
  setError st (Some ("Failed to fetch location data: " ++ errorMessage)%string).

(** [handleVisualize] from the settlement of [Promise.all] on: the rest of
    the [try] block, [catch] and [finally]. *)
Definition handleVisualize_resume (st : State) (from to : string)
    (settled : Settled (option Coordinates * option Coordinates)) : State :=
  let st' :=
    match settled with
    | fulfilled (Some fromCoords, Some toCoords) =>
        setPoints st
          (Some (mkLocationPoint from fromCoords, mkLocationPoint to toCoords))
    | fulfilled _ =>
        catch st
          (ErrorObject
             "Could not find coordinates for one or both locations."%string)
    | rejected err => catch st err
    end in
  setIsLoading st' false.

(** One request: the state while the geocoding calls are awaited (if they
    are started at all) and the state once the handler has finished. *)
Record Request : Type := mkRequest
  { awaiting : option State; finished : State }.

Definition handleVisualize (st : State) (from to : string)
    (replyFrom replyTo : Reply) (firstWins : bool) : Request :=
  match handleVisualize_begin st from to with
  | (st1, false) => mkRequest None st1
  | (st1, true) =>
      let settled :=
        promiseAll (getCoordinatesForLocation from replyFrom)
          (getCoordinatesForLocation to replyTo) firstWins in
      mkRequest (Some st1) (handleVisualize_resume st1 from to settled)
  end.

(** The geocoding of a location failed: its promise rejected, or it
    returned no coordinates. *)
Definition failed (s : Settled (option Coordinates)) : Prop :=
  match s with
  | fulfilled (Some _) => False
  | _ => True
  end.

(** [distance] as [App] derives it from the state. *)
Definition distance (st : State) : option R :=
  match points st with
  | Some (a, b) =>
      Some (match pathType st with
            | orthodromic => calculateOrthodromicDistance (coords a) (coords b)
            | loxodromic => calculateLoxodromicDistance (coords a) (coords b)
            end)
  | None => None
  end.

End App.

(** ** Auxiliary notions used in the statements *)

(** The end longitude after the antimeridian adjustment of
    [loxodromicSample], in degrees. *)
Definition adjustedEndLon (start end_ : Coordinates) : R :=
  let lon1 := (lon start * PI) / 180 in
  let lon2_0 := (lon end_ * PI) / 180 in
  (if Rgt_dec (Math.abs (lon2_0 - lon1)) PI
   then lon2_0 + (if Rgt_dec lon2_0 lon1 then -2 * PI else 2 * PI)
   else lon2_0) * 180 / PI.

(** The fraction of the longitude span [loxodromicSample] covers at sample
    [i]: linear on an east-west line, proportional to the stretched latitude
    otherwise. *)
Definition sampleFraction (start end_ : Coordinates) (i : nat) : R :=
  let lat1 := (lat start * PI) / 180 in
  let lat2 := (lat end_ * PI) / 180 in
  let dPsi :=
    Math.log (tan (lat2 / 2 + PI / 4) / tan (lat1 / 2 + PI / 4)) in
  let f := INR i / INR numPoints in
  let lat_i := lat1 + (lat2 - lat1) * f in
  if Rlt_dec (Math.abs dPsi) (1 / 10 ^ 10)
  then f
  else (Math.log (tan (lat_i / 2 + PI / 4))
        - Math.log (tan (lat1 / 2 + PI / 4))) / dPsi.

(** The [lon, lat] point the globe is centred on, as the redraw computes it:
    [[-rotate()[0], -rotate()[1]]]. *)
Definition viewCenter (P : d3.GeoProjection) : R * R :=
  let '(r0, r1, _) := d3.rotate P in (- r0, - r1).


(** A latitude clamped to [-89.9999, 89.9999], as the specification asks
    for. *)
Definition clampLatitude (p : Coordinates) : Coordinates :=
  mkCoordinates (Rmax (-89.9999) (Rmin 89.9999 (lat p))) (lon p).

(** ** The formulas of the specification, written from its words *)

Module Reference.

(** Haversine: [a = sin^2(dPhi/2) + cos phi1 cos phi2 sin^2(dLambda/2)],
    [c = 2 atan2(sqrt a, sqrt (1-a))], [d = R c], [R = 6371]. *)
Definition haversine (p1 p2 : Coordinates) : R :=
  let phi1 := lat p1 * PI / 180 in
  let phi2 := lat p2 * PI / 180 in
  let lambda1 := lon p1 * PI / 180 in
  let lambda2 := lon p2 * PI / 180 in
  let dPhi := phi2 - phi1 in
  let dLambda := lambda2 - lambda1 in
  let a := (sin (dPhi / 2)) ^ 2
           + cos phi1 * cos phi2 * (sin (dLambda / 2)) ^ 2 in
  let c := 2 * Math.atan2 (sqrt a) (sqrt (1 - a)) in
  6371 * c.

(** The longitude difference after the antimeridian correction: when its
    magnitude exceeds PI, a full turn is subtracted or added. *)
Definition wrap (dLambda : R) : R :=
  if Rgt_dec (Rabs dLambda) PI
  then (if Rgt_dec dLambda 0 then dLambda - 2 * PI else dLambda + 2 * PI)
  else dLambda.

(** Rhumb line: [d = R sqrt(dPhi^2 + q^2 dLambda^2)]. *)
Definition rhumb (p1 p2 : Coordinates) : R :=
  let phi1 := lat p1 * PI / 180 in
  let phi2 := lat p2 * PI / 180 in
  let lambda1 := lon p1 * PI / 180 in
  let lambda2 := lon p2 * PI / 180 in
  let dPhi := phi2 - phi1 in
  let dLambda := wrap (lambda2 - lambda1) in
  let dPsi := ln (tan (phi2 / 2 + PI / 4) / tan (phi1 / 2 + PI / 4)) in
  let q := if Rgt_dec (Rabs dPsi) (1 / 10 ^ 11)
           then dPhi / dPsi else cos phi1 in
  6371 * sqrt (dPhi ^ 2 + q ^ 2 * dLambda ^ 2).

End Reference.

(** ** Concrete points used as instances *)

Definition equator170E : Coordinates := mkCoordinates 0 170.
Definition equator170W : Coordinates := mkCoordinates 0 (-170).
Definition northPole : Coordinates := mkCoordinates 90 0.
Definition nullIsland : Coordinates := mkCoordinates 0 0.
Definition paris : Coordinates := mkCoordinates 48.8566 2.3522.
Definition newYork : Coordinates := mkCoordinates 40.7128 (-74.0060).

(** ** Further notions used in the statements *)

(** The difference of stretched latitudes as [calculateLoxodromicDistance]
    computes it ([deltaPsi]). *)
Definition deltaPsi (p1 p2 : Coordinates) : R :=
  Math.log (tan (deg2rad (lat p2) / 2 + PI / 4)
            / tan (deg2rad (lat p1) / 2 + PI / 4)).

(** The cosine of the angle between the directions of two [lon, lat]
    points (degrees): the dot product of their unit vectors. *)
Definition cosAngle (a b : R * R) : R :=
  sin (snd a * d3.radians) * sin (snd b * d3.radians)
  + cos (snd a * d3.radians) * cos (snd b * d3.radians)
    * cos (fst b * d3.radians - fst a * d3.radians).

(** The roll angle of the projection, [rotate()[2]]. *)
Definition roll (P : d3.GeoProjection) : R :=
  let '(_, _, r2) := d3.rotate P in r2.

(** Where the pan/zoom transform draws a point of the map. *)
Definition applyTransform (t : d3.Transform) (p : R * R) : R * R :=
  (d3.x t + d3.k t * fst p, d3.y t + d3.k t * snd p).

(** The messages of [geminiService.ts] and [App.tsx]. *)
Definition retrieveMessage (locationName : string) : string :=
  ("Could not retrieve coordinates for " ++ App.quote ++ locationName
   ++ App.quote ++ ".")%string.

Definition notFoundMessage : string :=
  "Could not find coordinates for one or both locations."%string.

Definition failurePrefix : string := "Failed to fetch location data: "%string.

Definition unknownMessage : string := "An unknown error occurred."%string.

(** A reply from which [getCoordinatesForLocation] returns coordinates. *)
Definition numeric (reply : App.Reply) : Prop :=
  match reply with
  | App.parsed (App.number _) (App.number _) => True
  | _ => False
  end.

(** The message a failed request shows after its prefix. *)
Definition failureDetail (from to : string) (replyFrom replyTo : App.Reply)
    (firstWins : bool) : string :=
  match replyFrom, replyTo with
  | App.throws, App.throws =>
      if firstWins then retrieveMessage from else retrieveMessage to
  | App.throws, _ => retrieveMessage from
  | _, App.throws => retrieveMessage to
  | _, _ => notFoundMessage
  end.

(** More concrete points. *)
Definition south60 : Coordinates := mkCoordinates (-60) 0.
Definition north60 : Coordinates := mkCoordinates 60 10.
Definition southPole : Coordinates := mkCoordinates (-90) 0.
Definition southPole10E : Coordinates := mkCoordinates (-90) 10.
Definition suva : Coordinates := mkCoordinates (-18) 178.
Definition apia : Coordinates := mkCoordinates (-14) (-172).

(** * Part II: properties *)
(** ** Elementary facts *)

Lemma deg2rad_minus (x y : R) : deg2rad (x - y) = deg2rad x - deg2rad y.
Proof. unfold deg2rad. ring. Qed.

Lemma deg2rad_spec (x : R) : deg2rad x = x * PI / 180.
Proof. unfold deg2rad. field. Qed.

Lemma atan2_0_1 : Math.atan2 0 1 = 0.
Proof.
  unfold Math.atan2.
  destruct (Rlt_dec 0 1) as [_ | H]; [ | exfalso; lra ].
  replace (0 / 1) with 0 by field. exact atan_0.
Qed.

Lemma Rabs_bounds (a b : R) : Rabs a <= b -> - b <= a <= b.
Proof. unfold Rabs. destruct (Rcase_abs a); lra. Qed.

(** ** Great-circle distance *)

(** C1: [calculateOrthodromicDistance] is the haversine reference value
    R*c with R = 6371, it is symmetric in its two arguments, and it is 0 when
    both arguments are the same point.  Nothing here needs the coordinates to
    be in range, so the statement holds in particular for valid ones. *)
Theorem calculateOrthodromicDistance_haversine (p1 p2 : Coordinates) :
  calculateOrthodromicDistance p1 p2 = Reference.haversine p1 p2
  /\ calculateOrthodromicDistance p1 p2 = calculateOrthodromicDistance p2 p1
  /\ calculateOrthodromicDistance p1 p1 = 0.
Proof.
  split; [ | split ].
  - unfold calculateOrthodromicDistance, Reference.haversine; cbv zeta.
    rewrite !deg2rad_minus, !deg2rad_spec.
    set (u := sin ((lat p2 * PI / 180 - lat p1 * PI / 180) / 2)).
    set (v := sin ((lon p2 * PI / 180 - lon p1 * PI / 180) / 2)).
    set (c1 := cos (lat p1 * PI / 180)).
    set (c2 := cos (lat p2 * PI / 180)).
    replace (u * u + c1 * c2 * v * v) with (u ^ 2 + c1 * c2 * v ^ 2) by ring.
    reflexivity.
  - unfold calculateOrthodromicDistance; cbv zeta.
    replace (deg2rad (lat p1 - lat p2) / 2)
      with (- (deg2rad (lat p2 - lat p1) / 2))
      by (unfold deg2rad; field).
    replace (deg2rad (lon p1 - lon p2) / 2)
      with (- (deg2rad (lon p2 - lon p1) / 2))
      by (unfold deg2rad; field).
    rewrite !sin_neg.
    set (u := sin (deg2rad (lat p2 - lat p1) / 2)).
    set (v := sin (deg2rad (lon p2 - lon p1) / 2)).
    set (c1 := cos (deg2rad (lat p1))).
    set (c2 := cos (deg2rad (lat p2))).
    replace (- u * - u + c2 * c1 * - v * - v)
      with (u * u + c1 * c2 * v * v) by ring.
    reflexivity.
  - unfold calculateOrthodromicDistance; cbv zeta.
    replace (lat p1 - lat p1) with 0 by ring.
    replace (lon p1 - lon p1) with 0 by ring.
    replace (deg2rad 0 / 2) with 0 by (unfold deg2rad; field).
    rewrite sin_0.
    replace (0 * 0 + cos (deg2rad (lat p1)) * cos (deg2rad (lat p1)) * 0 * 0)
      with 0 by ring.
    replace (1 - 0) with 1 by ring.
    rewrite sqrt_0, sqrt_1, atan2_0_1. ring.
Qed.

(** ** Rhumb-line distance *)

Lemma wrap_bound (d : R) :
  Rabs d <= 2 * PI -> Rabs (Reference.wrap d) <= PI.
Proof.
  intros Hd. unfold Reference.wrap.
  pose proof PI_RGT_0 as Hpi.
  destruct (Rgt_dec (Rabs d) PI) as [Hbig | Hsmall].
  - destruct (Rgt_dec d 0) as [Hpos | Hneg].
    + rewrite (Rabs_right d) in Hd, Hbig by lra.
      apply Rabs_le. lra.
    + rewrite (Rabs_left1 d) in Hd, Hbig by lra.
      apply Rabs_le. lra.
  - lra.
Qed.

Lemma valid_lon_difference (p1 p2 : Coordinates) :
  valid p1 -> valid p2 ->
  Rabs (lon p2 * PI / 180 - lon p1 * PI / 180) <= 2 * PI.
Proof.
  intros [_ [Hl1 Hu1]] [_ [Hl2 Hu2]].
  pose proof PI_RGT_0 as Hpi.
  replace (lon p2 * PI / 180 - lon p1 * PI / 180)
    with ((lon p2 - lon p1) * (PI / 180)) by field.
  apply Rabs_le. split; nra.
Qed.

Lemma calculateLoxodromicDistance_eq_rhumb (p1 p2 : Coordinates) :
  calculateLoxodromicDistance p1 p2 = Reference.rhumb p1 p2.
Proof.
  unfold calculateLoxodromicDistance, Reference.rhumb, Reference.wrap,
    Math.abs, Math.log; cbv zeta.
  rewrite deg2rad_minus, !deg2rad_spec.
  replace (10 / 10 ^ 12) with (1 / 10 ^ 11) by field.
  set (dPhi := lat p2 * PI / 180 - lat p1 * PI / 180).
  set (dL := lon p2 * PI / 180 - lon p1 * PI / 180).
  set (dPsi := ln (tan (lat p2 * PI / 180 / 2 + PI / 4)
                   / tan (lat p1 * PI / 180 / 2 + PI / 4))).
  rewrite Rmult_comm. f_equal. f_equal.
  destruct (Rgt_dec (Rabs dL) PI); [ destruct (Rgt_dec dL 0) | ];
    destruct (Rgt_dec (Rabs dPsi) (1 / 10 ^ 11)); ring.
Qed.

(** C2: for valid coordinates [calculateLoxodromicDistance] is
    R*sqrt(dPhi^2 + q^2*dLambda^2) with R = 6371, dLambda corrected by a full
    turn when its magnitude exceeds PI, dPsi the difference of stretched
    latitudes, and q = dPhi/dPsi when |dPsi| > 1e-11 and cos(phi1) otherwise;
    the corrected dLambda is the shorter way round: its magnitude is at most
    PI. *)
Theorem calculateLoxodromicDistance_reference (p1 p2 : Coordinates) :
  valid p1 -> valid p2 ->
  calculateLoxodromicDistance p1 p2 = Reference.rhumb p1 p2
  /\ Rabs (Reference.wrap (lon p2 * PI / 180 - lon p1 * PI / 180)) <= PI.
Proof.
  intros H1 H2. split.
  - apply calculateLoxodromicDistance_eq_rhumb.
  - apply wrap_bound, valid_lon_difference; assumption.
Qed.

(** *** The loop as a list of samples *)

Lemma loxodromicLoop_spec (start end_ : Coordinates) (n i : nat)
    (coords : list (R * R)) :
  loxodromicLoop start end_ n i coords
  = coords ++ map (loxodromicSample start end_) (seq i n).
Proof.
  revert i coords. induction n as [ | n IH]; intros i coords; simpl.
  - now rewrite app_nil_r.
  - rewrite IH, <- app_assoc. reflexivity.
Qed.

Lemma loxodromicCoords_spec (start end_ : Coordinates) :
  loxodromicCoords start end_
  = map (loxodromicSample start end_) (seq 0 (S numPoints)).
Proof. unfold loxodromicCoords. now rewrite loxodromicLoop_spec. Qed.

Lemma loxodromicCoords_length (start end_ : Coordinates) :
  List.length (loxodromicCoords start end_) = S numPoints.
Proof. now rewrite loxodromicCoords_spec, length_map, length_seq. Qed.

Lemma loxodromicCoords_nth (start end_ : Coordinates) (i : nat) :
  (i <= numPoints)%nat ->
  nth i (loxodromicCoords start end_) (0, 0) = loxodromicSample start end_ i.
Proof.
  intros Hi. rewrite loxodromicCoords_spec.
  rewrite (nth_indep _ (0, 0) (loxodromicSample start end_ 0%nat))
    by (rewrite length_map, length_seq; lia).
  rewrite map_nth, seq_nth by lia. reflexivity.
Qed.


Lemma INR_numPoints : INR numPoints = 50.
Proof. unfold numPoints. rewrite INR_IZR_INZ. reflexivity. Qed.

Lemma loxodromicSample_shape (start end_ : Coordinates) (i : nat) :
  loxodromicSample start end_ i
  = (lon start
     + (adjustedEndLon start end_ - lon start) * sampleFraction start end_ i,
     lat start + (lat end_ - lat start) * (INR i / INR numPoints)).
Proof.
  pose proof PI_RGT_0 as Hpi.
  unfold loxodromicSample, adjustedEndLon, sampleFraction; cbv zeta.
  rewrite INR_numPoints.
  set (dPsi := Math.log _).
  set (lon2 := if Rgt_dec _ PI then _ else _).
  destruct (Rlt_dec (Math.abs dPsi) (1 / 10 ^ 10)) as [Hew | Hew];
    f_equal; field; try lra.
  split; [ | lra ].
  intros H0. apply Hew. rewrite H0. unfold Math.abs. rewrite Rabs_R0. lra.
Qed.

Lemma adjustedEndLon_degrees (start end_ : Coordinates) :
  adjustedEndLon start end_
  = if Rgt_dec (Rabs (lon end_ - lon start)) 180
    then lon end_ + (if Rgt_dec (lon end_) (lon start) then -360 else 360)
    else lon end_.
Proof.
  pose proof PI_RGT_0 as Hpi.
  unfold adjustedEndLon, Math.abs; cbv zeta.
  assert (Habs : Rabs (lon end_ * PI / 180 - lon start * PI / 180)
                 = Rabs (lon end_ - lon start) * (PI / 180)).
  { replace (lon end_ * PI / 180 - lon start * PI / 180)
      with ((lon end_ - lon start) * (PI / 180)) by field.
    rewrite Rabs_mult, (Rabs_right (PI / 180)) by lra. reflexivity. }
  rewrite Habs.
  destruct (Rgt_dec (Rabs (lon end_ - lon start) * (PI / 180)) PI) as [Hr | Hr];
    destruct (Rgt_dec (Rabs (lon end_ - lon start)) 180) as [Hd | Hd];
    try (exfalso; nra).
  - destruct (Rgt_dec (lon end_ * PI / 180) (lon start * PI / 180)) as [Hc | Hc];
      destruct (Rgt_dec (lon end_) (lon start)) as [He | He];
      try (exfalso; nra); field; lra.
  - field; lra.
Qed.

(** For valid endpoints the adjusted end longitude is within half a turn of
    the start longitude. *)
Lemma adjustedEndLon_span (start end_ : Coordinates) :
  valid start -> valid end_ ->
  Rabs (adjustedEndLon start end_ - lon start) <= 180.
Proof.
  intros [_ [Hl1 Hu1]] [_ [Hl2 Hu2]].
  rewrite adjustedEndLon_degrees.
  destruct (Rgt_dec (Rabs (lon end_ - lon start)) 180) as [Hd | Hd].
  - destruct (Rgt_dec (lon end_) (lon start)) as [He | He].
    + rewrite Rabs_right in Hd by lra. apply Rabs_le. lra.
    + rewrite Rabs_left1 in Hd by lra. apply Rabs_le. lra.
  - lra.
Qed.

(** *** Stretched latitude away from the poles *)

Lemma stretch_arg_range (latd : R) :
  -90 < latd < 90 ->
  0 < latd * PI / 180 / 2 + PI / 4 < PI / 2.
Proof. intros [Hl Hu]. pose proof PI_RGT_0 as Hpi. split; nra. Qed.

Lemma tan_stretch_pos (latd : R) :
  -90 < latd < 90 -> 0 < tan (latd * PI / 180 / 2 + PI / 4).
Proof.
  intros H. apply stretch_arg_range in H. apply tan_gt_0; lra.
Qed.

Lemma ln_quotient (x y : R) : 0 < x -> 0 < y -> ln (x / y) = ln x - ln y.
Proof.
  intros Hx Hy. unfold Rdiv.
  rewrite ln_mult, ln_Rinv by (try apply Rinv_0_lt_compat; assumption).
  ring.
Qed.

Lemma ln_tan_stretch_le (a b : R) :
  -90 < a -> a <= b -> b < 90 ->
  ln (tan (a * PI / 180 / 2 + PI / 4)) <= ln (tan (b * PI / 180 / 2 + PI / 4)).
Proof.
  intros Ha Hab Hb. pose proof PI_RGT_0 as Hpi.
  destruct (Req_dec a b) as [-> | Hne]; [lra | ].
  left. apply ln_increasing.
  - apply tan_stretch_pos; lra.
  - pose proof (stretch_arg_range a ltac:(lra)).
    pose proof (stretch_arg_range b ltac:(lra)).
    apply tan_increasing; try lra. nra.
Qed.

Lemma sample_index_fraction (i : nat) :
  (i <= numPoints)%nat -> 0 <= INR i / INR numPoints <= 1.
Proof.
  intros Hi. apply le_INR in Hi. pose proof (pos_INR i) as H0.
  rewrite INR_numPoints in *. lra.
Qed.

(** On a parallel the quotient of tangents is 1, its logarithm 0, and the
    east-west branch is taken. *)
Lemma sampleFraction_parallel (start end_ : Coordinates) (i : nat) :
  nonpolar start -> lat end_ = lat start ->
  sampleFraction start end_ i = INR i / INR numPoints.
Proof.
  intros Hnp Heq. unfold sampleFraction, Math.log, Math.abs; cbv zeta.
  rewrite Heq.
  pose proof (tan_stretch_pos (lat start) Hnp) as Hpos.
  replace (tan (lat start * PI / 180 / 2 + PI / 4)
           / tan (lat start * PI / 180 / 2 + PI / 4)) with 1 by (field; lra).
  rewrite ln_1, Rabs_R0.
  destruct (Rlt_dec 0 (1 / 10 ^ 10)) as [_ | Hn]; [reflexivity | ].
  exfalso. apply Hn. lra.
Qed.

Lemma quotient_unit (a d : R) :
  (0 < d /\ 0 <= a <= d) \/ (d < 0 /\ d <= a <= 0) -> 0 <= a / d <= 1.
Proof.
  intros H.
  assert (Hd : d <> 0) by lra.
  assert (Ha : a = a / d * d) by (field; exact Hd).
  set (r := a / d) in *. clearbody r.
  destruct H as [[Hpos Hrng] | [Hneg Hrng]]; split; nra.
Qed.

(** Away from the poles the stretched latitude is monotone, so the fraction
    of the longitude span covered at any sample lies in [0, 1]. *)
Lemma sampleFraction_unit (start end_ : Coordinates) (i : nat) :
  nonpolar start -> nonpolar end_ -> (i <= numPoints)%nat ->
  0 <= sampleFraction start end_ i <= 1.
Proof.
  intros Hs He Hi. unfold nonpolar in Hs, He.
  pose proof PI_RGT_0 as Hpi.
  pose proof (sample_index_fraction i Hi) as Hf.
  unfold sampleFraction, Math.log, Math.abs; cbv zeta.
  set (f := INR i / INR numPoints) in *.
  rewrite ln_quotient by (apply tan_stretch_pos; assumption).
  set (L := lat start + (lat end_ - lat start) * f).
  replace ((lat start * PI / 180
            + (lat end_ * PI / 180 - lat start * PI / 180) * f) / 2 + PI / 4)
    with (L * PI / 180 / 2 + PI / 4) by (unfold L; field).
  set (psi1 := ln (tan (lat start * PI / 180 / 2 + PI / 4))).
  set (psi2 := ln (tan (lat end_ * PI / 180 / 2 + PI / 4))).
  set (psi_i := ln (tan (L * PI / 180 / 2 + PI / 4))).
  destruct (Rlt_dec (Rabs (psi2 - psi1)) (1 / 10 ^ 10)) as [Hew | Hew];
    [ exact Hf | ].
  assert (Hfar : 0 < Rabs (psi2 - psi1)) by lra.
  apply quotient_unit.
  destruct (Rle_dec (lat start) (lat end_)) as [Hle | Hge].
  - left.
    assert (HL : lat start <= L <= lat end_) by (unfold L; split; nra).
    assert (H1 : psi1 <= psi_i) by (apply ln_tan_stretch_le; lra).
    assert (H2 : psi_i <= psi2) by (apply ln_tan_stretch_le; lra).
    assert (H3 : psi2 - psi1 <> 0)
      by (intros H0; rewrite H0, Rabs_R0 in Hfar; lra).
    lra.
  - right.
    assert (HL : lat end_ <= L <= lat start) by (unfold L; split; nra).
    assert (H1 : psi_i <= psi1) by (apply ln_tan_stretch_le; lra).
    assert (H2 : psi2 <= psi_i) by (apply ln_tan_stretch_le; lra).
    assert (H3 : psi2 - psi1 <> 0)
      by (intros H0; rewrite H0, Rabs_R0 in Hfar; lra).
    lra.
Qed.

(** *** Vertices of the sampled path *)

Lemma lonAt_sample (start end_ : Coordinates) (i : nat) :
  (i <= numPoints)%nat ->
  lonAt (loxodromicCoords start end_) i
  = lon start
    + (adjustedEndLon start end_ - lon start) * sampleFraction start end_ i.
Proof.
  intros Hi. unfold lonAt.
  now rewrite loxodromicCoords_nth, loxodromicSample_shape by exact Hi.
Qed.

Lemma latAt_sample (start end_ : Coordinates) (i : nat) :
  (i <= numPoints)%nat ->
  latAt (loxodromicCoords start end_) i
  = lat start + (lat end_ - lat start) * (INR i / INR numPoints).
Proof.
  intros Hi. unfold latAt.
  now rewrite loxodromicCoords_nth, loxodromicSample_shape by exact Hi.
Qed.

Lemma lonAt_parallel (start end_ : Coordinates) (i : nat) :
  nonpolar start -> lat end_ = lat start -> (i <= numPoints)%nat ->
  lonAt (loxodromicCoords start end_) i
  = lon start + (adjustedEndLon start end_ - lon start) * (INR i / 50).
Proof.
  intros Hnp Heq Hi.
  rewrite lonAt_sample, sampleFraction_parallel, INR_numPoints by assumption.
  reflexivity.
Qed.

Lemma lonAt_parallel_step (start end_ : Coordinates) (i : nat) :
  nonpolar start -> lat end_ = lat start -> (i < numPoints)%nat ->
  lonAt (loxodromicCoords start end_) (S i)
  - lonAt (loxodromicCoords start end_) i
  = (adjustedEndLon start end_ - lon start) / 50.
Proof.
  intros Hnp Heq Hi.
  rewrite !lonAt_parallel by (try assumption; lia).
  rewrite S_INR. field.
Qed.

(** *** The parallel through the south pole *)

Lemma IEEE_mul_NaN_r (a : IEEE.number) : IEEE.mul a IEEE.NaN = IEEE.NaN.
Proof. now destruct a. Qed.

Lemma IEEE_add_NaN_r (a : IEEE.number) : IEEE.add a IEEE.NaN = IEEE.NaN.
Proof. now destruct a. Qed.

Lemma IEEE_div_Fin (x y : R) :
  y <> 0 -> IEEE.div (IEEE.Fin x) (IEEE.Fin y) = IEEE.Fin (x / y).
Proof.
  intros Hy. cbn [IEEE.div].
  destruct (Req_dec_T y 0) as [H0 | _]; [ contradiction | reflexivity ].
Qed.

Lemma IEEE_div_0_0 : IEEE.div (IEEE.Fin 0) (IEEE.Fin 0) = IEEE.NaN.
Proof.
  cbn [IEEE.div]. destruct (Req_dec_T 0 0) as [_ | H]; [ | now destruct H ].
  unfold IEEE.signed. destruct (Rlt_dec 0 0) as [H | _]; [ lra | reflexivity ].
Qed.

Lemma IEEE_tan_0 : IEEE.tan (IEEE.Fin 0) = IEEE.Fin 0.
Proof.
  cbn [IEEE.tan]. rewrite cos_0, tan_0.
  destruct (Req_dec_T 1 0) as [H | _]; [ lra | reflexivity ].
Qed.

Lemma IEEE_log_0 : IEEE.log (IEEE.Fin 0) = IEEE.NInf.
Proof.
  cbn [IEEE.log]. destruct (Rlt_dec 0 0) as [H | _]; [ lra | ].
  destruct (Req_dec_T 0 0) as [_ | H]; [ reflexivity | now destruct H ].
Qed.

(** The stretched-latitude argument [lat / 2 + PI / 4] at latitude -90. *)
Lemma IEEE_south_pole_argument (f : R) :
  let lat1 :=
    IEEE.div (IEEE.mul (IEEE.Fin (-90)) IEEE.PI) (IEEE.Fin 180) in
  let lat_i := IEEE.add lat1 (IEEE.mul (IEEE.sub lat1 lat1) (IEEE.Fin f)) in
  IEEE.add (IEEE.div lat1 (IEEE.Fin 2)) (IEEE.div IEEE.PI (IEEE.Fin 4))
  = IEEE.Fin 0
  /\ IEEE.add (IEEE.div lat_i (IEEE.Fin 2)) (IEEE.div IEEE.PI (IEEE.Fin 4))
     = IEEE.Fin 0
  /\ IEEE.div (IEEE.mul lat_i (IEEE.Fin 180)) IEEE.PI = IEEE.Fin (-90).
Proof.
  pose proof PI_RGT_0 as Hpi. cbv zeta. unfold IEEE.PI.
  cbn [IEEE.mul]. rewrite !IEEE_div_Fin by lra.
  cbn [IEEE.sub IEEE.neg IEEE.add IEEE.mul].
  rewrite !IEEE_div_Fin by lra. cbn [IEEE.add].
  repeat split; f_equal; field; lra.
Qed.

(** C5, the defect at the south pole.  On the parallel of latitude -90,
    which the documented range allows, from longitude 0 to longitude 10, the
    loop body computes [dPsi = Math.log(0 / 0) = NaN]; the guard
    [Math.abs(dPsi) < 1e-10] of the east-west branch is then false, the
    other branch subtracts minus infinity from itself, and every vertex of
    the path gets the longitude [NaN] (with latitude -90).  No two
    consecutive longitudes compare as increasing or decreasing. *)
Theorem loxodromic_path_on_polar_parallel (i : nat) :
  IEEE.loxodromicSample southPole southPole10E i = (IEEE.NaN, IEEE.Fin (-90))
  /\ IEEE.lt (fst (IEEE.loxodromicSample southPole southPole10E i))
             (fst (IEEE.loxodromicSample southPole southPole10E (S i)))
     = false
  /\ IEEE.gt (fst (IEEE.loxodromicSample southPole southPole10E i))
             (fst (IEEE.loxodromicSample southPole southPole10E (S i)))
     = false.
Proof.
  assert (Hsample : forall j,
            IEEE.loxodromicSample southPole southPole10E j
            = (IEEE.NaN, IEEE.Fin (-90))).
  { intros j. unfold IEEE.loxodromicSample, southPole, southPole10E.
    cbn [lat lon]. cbv zeta.
    assert (Hf : IEEE.div (IEEE.Fin (INR j)) (IEEE.Fin (INR numPoints))
                 = IEEE.Fin (INR j / INR numPoints))
      by (apply IEEE_div_Fin; rewrite INR_numPoints; lra).
    rewrite Hf.
    destruct (IEEE_south_pole_argument (INR j / INR numPoints))
      as (Harg & Hargi & Hlat).
    cbv zeta in Harg, Hargi, Hlat. rewrite Harg, Hargi, Hlat.
    rewrite IEEE_tan_0, IEEE_div_0_0, IEEE_log_0.
    cbn [IEEE.log IEEE.abs IEEE.lt IEEE.sub IEEE.neg IEEE.add].
    rewrite IEEE_mul_NaN_r. cbn [IEEE.div].
    rewrite IEEE_add_NaN_r. reflexivity. }
  rewrite !Hsample. repeat split; reflexivity.
Qed.

(** *** Across the antimeridian

    From (0, 170) to (0, -170) the path runs on from 170 degrees east
    through 180 to 190 degrees, in steps of 0.4 degrees. *)
Lemma adjustedEndLon_antimeridian :
  adjustedEndLon equator170E equator170W = 190.
Proof.
  rewrite adjustedEndLon_degrees. unfold equator170E, equator170W.
  cbn [lat lon].
  destruct (Rgt_dec (Rabs (-170 - 170)) 180) as [_ | Hn].
  - destruct (Rgt_dec (-170) 170) as [Hc | _]; lra.
  - exfalso. apply Hn. rewrite Rabs_left by lra. lra.
Qed.

Lemma antimeridian_path_longitudes (i : nat) :
  (i <= numPoints)%nat ->
  lonAt (loxodromicCoords equator170E equator170W) i = 170 + 20 * (INR i / 50).
Proof.
  intros Hi.
  rewrite lonAt_parallel; [ | unfold nonpolar, equator170E; cbn [lat]; lra
                            | reflexivity | exact Hi ].
  rewrite adjustedEndLon_antimeridian. unfold equator170E. cbn [lon]. ring.
Qed.

(** ** The sampled path and the documented coordinate range *)


Lemma adjustedEndLon_suva_apia : adjustedEndLon suva apia = 188.
Proof.
  rewrite adjustedEndLon_degrees. unfold suva, apia. cbn [lat lon].
  destruct (Rgt_dec (Rabs (-172 - 178)) 180) as [_ | Hn].
  - destruct (Rgt_dec (-172) 178) as [Hc | _]; lra.
  - exfalso. apply Hn. rewrite Rabs_left by lra. lra.
Qed.



(** ** Latitudes at the poles: no clamp *)

(** Along a meridian the longitude term vanishes whatever [q] is, and the
    distance is the latitude difference times the radius. *)
Lemma meridian_distance (p1 p2 : Coordinates) :
  lon p1 = lon p2 ->
  calculateLoxodromicDistance p1 p2
  = 6371 * Rabs (deg2rad (lat p2) - deg2rad (lat p1)).
Proof.
  intros Hlon. pose proof PI_RGT_0 as Hpi.
  unfold calculateLoxodromicDistance, Math.abs; cbv zeta.
  replace (deg2rad (lon p2 - lon p1)) with 0
    by (rewrite Hlon; unfold deg2rad; ring).
  rewrite Rabs_R0.
  destruct (Rgt_dec 0 PI) as [Hbad | _]; [ exfalso; lra | ].
  set (dPhi := deg2rad (lat p2) - deg2rad (lat p1)).
  set (q := if Rgt_dec _ _ then _ else _).
  replace (dPhi * dPhi + q * q * 0 * 0) with (Rsqr dPhi)
    by (unfold Rsqr; ring).
  rewrite sqrt_Rsqr_abs. ring.
Qed.

Lemma clampLatitude_northPole :
  clampLatitude northPole = mkCoordinates 89.9999 0.
Proof.
  unfold clampLatitude, northPole. cbn [lat lon]. f_equal.
  rewrite (Rmin_left 89.9999 90) by lra. apply Rmax_right. lra.
Qed.

(** C4, refuted as stated: with a latitude of 90 neither function behaves
    as if the latitude were 89.9999.  From the pole (90, 0) to (0, 0) the
    distance differs from the one computed from (89.9999, 0), and the sampled
    path starts at latitude 90, not 89.9999. *)
Lemma pole_latitude_is_not_clamped :
  calculateLoxodromicDistance northPole nullIsland
  <> calculateLoxodromicDistance (clampLatitude northPole) nullIsland
  /\ latAt (loxodromicCoords northPole nullIsland) 0
     <> latAt (loxodromicCoords (clampLatitude northPole) nullIsland) 0.
Proof.
  pose proof PI_RGT_0 as Hpi. rewrite clampLatitude_northPole. split.
  - rewrite !meridian_distance by reflexivity.
    unfold northPole, nullIsland, deg2rad. cbn [lat lon].
    rewrite !Rabs_left by lra. lra.
  - rewrite !latAt_sample by (unfold numPoints; lia).
    unfold northPole, nullIsland. cbn [lat lon]. cbn [INR]. lra.
Qed.

(** C4, as the code has it: neither the rhumb-line distance nor the path
    sampler clamps a latitude.  Both are total functions (a call at a pole
    returns), and the latitude is used as given: along a meridian the
    distance is 6371 times the difference of the unclamped latitudes in
    radians, and vertex [i] of the sampled path has the latitude
    lat1 + (lat2 - lat1) * i / numPoints, so a path from a pole starts at
    latitude +-90 itself. *)
Theorem latitude_is_used_unclamped (p1 p2 : Coordinates) :
  (lon p1 = lon p2 ->
   calculateLoxodromicDistance p1 p2
   = 6371 * Rabs (deg2rad (lat p2) - deg2rad (lat p1)))
  /\ (forall i, (i <= numPoints)%nat ->
        latAt (loxodromicCoords p1 p2) i
        = lat p1 + (lat p2 - lat p1) * (INR i / INR numPoints)).
Proof.
  split.
  - apply meridian_distance.
  - intros i Hi. apply latAt_sample, Hi.
Qed.

Lemma latitude_is_used_unclamped_northPole :
  lon northPole = lon nullIsland /\ (0 <= numPoints)%nat
  /\ calculateLoxodromicDistance northPole nullIsland
     = 6371 * Rabs (deg2rad (lat nullIsland) - deg2rad (lat northPole))
  /\ latAt (loxodromicCoords northPole nullIsland) 0
     = lat northPole
       + (lat nullIsland - lat northPole) * (INR 0 / INR numPoints).
Proof.
  split; [reflexivity | ]. split; [apply Nat.le_0_l | ].
  split.
  - exact (proj1 (latitude_is_used_unclamped northPole nullIsland) eq_refl).
  - exact (proj2 (latitude_is_used_unclamped northPole nullIsland) 0%nat
             (Nat.le_0_l numPoints)).
Defined.

Lemma calculateLoxodromicDistance_reference_paris_newYork :
  valid paris /\ valid newYork
  /\ calculateLoxodromicDistance paris newYork = Reference.rhumb paris newYork
  /\ Rabs (Reference.wrap (lon newYork * PI / 180 - lon paris * PI / 180))
     <= PI.
Proof.
  assert (H1 : valid paris) by (unfold valid, paris; cbn [lat lon]; lra).
  assert (H2 : valid newYork) by (unfold valid, newYork; cbn [lat lon]; lra).
  split; [exact H1 | ]. split; [exact H2 | ].
  exact (calculateLoxodromicDistance_reference paris newYork H1 H2).
Defined.

(** ** Orthographic view: endpoint visibility *)

Lemma cos_Rabs (x : R) : cos (Rabs x) = cos x.
Proof.
  unfold Rabs. destruct (Rcase_abs x); [apply cos_neg | reflexivity].
Qed.

Lemma sin_cos_full_turns (x : R) (n : Z) :
  cos (x - IZR n * (2 * PI)) = cos x /\ sin (x - IZR n * (2 * PI)) = sin x.
Proof.
  assert (Hk : exists k : nat, IZR n = INR k \/ IZR n = - INR k).
  { destruct (Z.le_gt_cases 0 n) as [Hn | Hn].
    - exists (Z.to_nat n). left. now rewrite INR_IZR_INZ, Z2Nat.id.
    - exists (Z.to_nat (- n)). right.
      rewrite INR_IZR_INZ, Z2Nat.id by lia. rewrite opp_IZR. ring. }
  destruct Hk as [k [-> | ->]].
  - remember (x - INR k * (2 * PI)) as y eqn:Hy.
    assert (Hx : x = y + 2 * INR k * PI) by (subst y; ring).
    rewrite Hx. now rewrite cos_period, sin_period.
  - replace (x - - INR k * (2 * PI)) with (x + 2 * INR k * PI) by ring.
    now rewrite cos_period, sin_period.
Qed.

(** An angle of 0 from [Math.atan2] with a non-negative first argument:
    the point lies on the non-negative x axis. *)
Lemma atan2_eq_0 (s z : R) :
  0 <= s -> Math.atan2 s z = 0 -> s = 0 /\ 0 <= z.
Proof.
  intros Hs. unfold Math.atan2. pose proof PI_RGT_0 as Hpi.
  destruct (Rlt_dec 0 z) as [Hz | Hz].
  - intros H. apply atan_eq0 in H. split; [ | lra ].
    unfold Rdiv in H. apply Rmult_integral in H. destruct H as [H | H].
    + exact H.
    + exfalso. apply (Rinv_neq_0_compat z); lra.
  - destruct (Rlt_dec z 0) as [Hz' | Hz'].
    + destruct (Rle_dec 0 s) as [_ | Hn]; [ | exfalso; lra ].
      pose proof (atan_bound (s / z)) as Hb. intros H. exfalso. lra.
    + destruct (Rlt_dec 0 s) as [Hs' | Hs'].
      * intros H. exfalso. lra.
      * destruct (Rlt_dec s 0); intros H; split; lra.
Qed.

Lemma atan2_0_pos (z : R) : 0 < z -> Math.atan2 0 z = 0.
Proof.
  intros Hz. unfold Math.atan2.
  destruct (Rlt_dec 0 z) as [_ | Hn]; [ | exfalso; lra ].
  unfold Rdiv. rewrite Rmult_0_l. exact atan_0.
Qed.

Lemma sum_squares_0 (a b : R) : a * a + b * b = 0 -> a = 0 /\ b = 0.
Proof. intros H. split; nra. Qed.

Lemma rotationLambda_trig (dl : R) (p : R * R) :
  cos (fst (d3.rotationLambda dl p)) = cos (fst p + dl)
  /\ sin (fst (d3.rotationLambda dl p)) = sin (fst p + dl)
  /\ snd (d3.rotationLambda dl p) = snd p.
Proof.
  unfold d3.rotationLambda, Math.round, d3.tau; cbn [fst snd].
  destruct (Rgt_dec (Math.abs (fst p + dl)) PI) as [Hw | Hw].
  - destruct (sin_cos_full_turns (fst p + dl)
                (Int_part ((fst p + dl) / (2 * PI) + / 2))) as [Hc Hs].
    now rewrite Hc, Hs.
  - repeat split.
Qed.

Lemma sin_cos_unit (t : R) : sin t * sin t + cos t * cos t = 1.
Proof. exact (sin2_cos2 t). Qed.

(** The cross and dot products [geoDistance] forms belong to a unit
    vector. *)
Lemma geoDistance_unit (cF sF cB sB cD sD : R) :
  sF * sF + cF * cF = 1 -> sB * sB + cB * cB = 1 -> sD * sD + cD * cD = 1 ->
  let x := cF * sD in
  let y := cB * - sF - sB * cF * cD in
  let z := sB * - sF + cB * cF * cD in
  x * x + y * y + z * z = 1.
Proof.
  intros HF HB HD x y z. subst x y z.
  replace (cF * sD * (cF * sD)
           + (cB * - sF - sB * cF * cD) * (cB * - sF - sB * cF * cD)
           + (sB * - sF + cB * cF * cD) * (sB * - sF + cB * cF * cD))
    with (cF * cF * (sD * sD)
          + (sF * sF + cF * cF * (cD * cD)) * (sB * sB + cB * cB)) by ring.
  rewrite HB, Rmult_1_r.
  replace (cF * cF * (sD * sD) + (sF * sF + cF * cF * (cD * cD)))
    with (cF * cF * (sD * sD + cD * cD) + sF * sF) by ring.
  rewrite HD. lra.
Qed.

(** So do the coordinates of the rotated point. *)
Lemma rotation_unit (cL sL cB sB cF sF cG sG : R) :
  sL * sL + cL * cL = 1 -> sB * sB + cB * cB = 1 ->
  sF * sF + cF * cF = 1 -> sG * sG + cG * cG = 1 ->
  let k := sB * cF + cL * cB * sF in
  let a := sL * cB * cG - k * sG in
  let u := k * cG + sL * cB * sG in
  let b := cL * cB * cF - sB * sF in
  a * a + u * u + b * b = 1.
Proof.
  intros HL HB HF HG k a u b. subst a u b.
  replace ((sL * cB * cG - k * sG) * (sL * cB * cG - k * sG)
           + (k * cG + sL * cB * sG) * (k * cG + sL * cB * sG)
           + (cL * cB * cF - sB * sF) * (cL * cB * cF - sB * sF))
    with ((sL * cB * (sL * cB) + k * k) * (sG * sG + cG * cG)
          + (cL * cB * cF - sB * sF) * (cL * cB * cF - sB * sF)) by ring.
  rewrite HG, Rmult_1_r. subst k.
  replace (sL * cB * (sL * cB)
           + (sB * cF + cL * cB * sF) * (sB * cF + cL * cB * sF)
           + (cL * cB * cF - sB * sF) * (cL * cB * cF - sB * sF))
    with (cB * cB * (sL * sL)
          + (sB * sB + cL * cL * (cB * cB)) * (sF * sF + cF * cF)) by ring.
  rewrite HF, Rmult_1_r.
  replace (cB * cB * (sL * sL) + (sB * sB + cL * cL * (cB * cB)))
    with (cB * cB * (sL * sL + cL * cL) + sB * sB) by ring.
  rewrite HL. lra.
Qed.

Lemma sum_squares_nonneg (a b : R) : 0 <= a * a + b * b.
Proof. nra. Qed.

(** A point at angular distance 0 from the view centre is drawn at the
    translation point of the projection. *)
Lemma project_centered (P : d3.GeoProjection) (d : R * R) :
  d3.geoDistance d (viewCenter P) = 0 -> d3.project P d = d3.translate P.
Proof.
  destruct P as [s [[r0 r1] r2] [tx ty]]. destruct d as [dl dp].
  unfold viewCenter, d3.geoDistance, d3.project.
  cbn [d3.rotate d3.scale d3.translate fst snd].
  intros H.
  destruct (rotationLambda_trig (r0 * d3.radians)
              (dl * d3.radians, dp * d3.radians)) as (Hc & Hs & Hp).
  cbn [fst snd] in Hc, Hs, Hp.
  unfold d3.rotationPhiGamma, d3.orthographicRaw. cbn [fst snd].
  rewrite Hc, Hs, Hp. clear Hc Hs Hp.
  replace (- r1 * d3.radians) with (- (r1 * d3.radians)) in H by ring.
  rewrite cos_neg, sin_neg in H.
  assert (HcD : cos (Math.abs (- r0 * d3.radians - dl * d3.radians))
                = cos (dl * d3.radians + r0 * d3.radians)).
  { unfold Math.abs. rewrite cos_Rabs.
    replace (- r0 * d3.radians - dl * d3.radians)
      with (- (dl * d3.radians + r0 * d3.radians)) by ring.
    apply cos_neg. }
  pose proof (sin_cos_unit (Math.abs (- r0 * d3.radians - dl * d3.radians)))
    as HD.
  rewrite HcD in H, HD.
  pose proof (sin_cos_unit (dl * d3.radians + r0 * d3.radians)) as HL.
  pose proof (sin_cos_unit (dp * d3.radians)) as HB.
  pose proof (sin_cos_unit (r1 * d3.radians)) as HF.
  pose proof (sin_cos_unit (r2 * d3.radians)) as HG.
  set (sD := sin (Math.abs _)) in *.
  set (cL := cos (dl * d3.radians + r0 * d3.radians)) in *.
  set (sL := sin (dl * d3.radians + r0 * d3.radians)) in *.
  set (cB := cos (dp * d3.radians)) in *.
  set (sB := sin (dp * d3.radians)) in *.
  set (cF := cos (r1 * d3.radians)) in *.
  set (sF := sin (r1 * d3.radians)) in *.
  set (cG := cos (r2 * d3.radians)) in *.
  set (sG := sin (r2 * d3.radians)) in *.
  pose proof (geoDistance_unit cF sF cB sB cL sD HF HB HD) as Hgeo.
  pose proof (rotation_unit cL sL cB sB cF sF cG sG HL HB HF HG) as Hrot.
  cbv zeta in Hgeo, Hrot.
  apply atan2_eq_0 in H; [ | apply sqrt_pos ].
  destruct H as [Hsq Hz].
  apply sqrt_eq_0 in Hsq; [ | apply sum_squares_nonneg ].
  assert (Hb : cL * cB * cF - sB * sF = 1) by nra.
  assert (Hau : (sL * cB * cG - (sB * cF + cL * cB * sF) * sG)
                * (sL * cB * cG - (sB * cF + cL * cB * sF) * sG)
                + ((sB * cF + cL * cB * sF) * cG + sL * cB * sG)
                  * ((sB * cF + cL * cB * sF) * cG + sL * cB * sG) = 0)
    by nra.
  apply sum_squares_0 in Hau. destruct Hau as [Ha Hu].
  rewrite Ha, Hu, Hb, asin_0, atan2_0_1, sin_0, cos_0.
  f_equal; ring.
Qed.

Lemma geoDistance_self (c : R * R) : d3.geoDistance c c = 0.
Proof.
  unfold d3.geoDistance, Math.abs; cbv zeta.
  replace (fst c * d3.radians - fst c * d3.radians) with 0 by ring.
  rewrite Rabs_R0, sin_0, cos_0.
  set (sP := sin (snd c * d3.radians)). set (cP := cos (snd c * d3.radians)).
  replace (cP * 0 * (cP * 0) + (cP * sP - sP * cP * 1) * (cP * sP - sP * cP * 1))
    with 0 by ring.
  replace (sP * sP + cP * cP * 1) with 1
    by (pose proof (sin_cos_unit (snd c * d3.radians)); fold sP cP in H; lra).
  rewrite sqrt_0. exact atan2_0_1.
Qed.

Lemma redrawEndpoint_display (P : d3.GeoProjection) (d : R * R) :
  Globe.display (Globe.redrawEndpoint P d)
  = if Rle_dec (d3.geoDistance d (viewCenter P)) (PI / 2)
    then Globe.inline else Globe.none.
Proof.
  unfold Globe.redrawEndpoint, viewCenter.
  destruct (d3.rotate P) as [[r0 r1] r2]. reflexivity.
Qed.

Lemma redrawEndpoint_position (P : d3.GeoProjection) (d : R * R) :
  (Globe.cx (Globe.redrawEndpoint P d), Globe.cy (Globe.redrawEndpoint P d))
  = d3.project P d.
Proof.
  unfold Globe.redrawEndpoint.
  destruct (d3.rotate P) as [[r0 r1] r2]. cbn [Globe.cx Globe.cy].
  now destruct (d3.project P d).
Qed.

(** The component never moves the translation point of the projection. *)
Lemma step_translate (width height : R)
    (geoInterpolate : R * R -> R * R -> R -> R * R)
    (st : Globe.State) (e : Globe.Event) :
  d3.translate (Globe.projection (Globe.step width height geoInterpolate st e))
  = d3.translate (Globe.projection st).
Proof.
  destruct e as [dx dy | factor p | [[start end_] | ] pathType]; cbn.
  - unfold Globe.onDrag.
    destruct (d3.rotate (Globe.projection st)) as [[r0 r1] r2]. reflexivity.
  - reflexivity.
  - destruct (d3.rotate (Globe.projection st)) as [[r0 r1] r2]. reflexivity.
  - reflexivity.
Qed.

Lemma run_translate (width height : R)
    (geoInterpolate : R * R -> R * R -> R -> R * R)
    (events : list Globe.Event) :
  d3.translate (Globe.projection (Globe.run width height geoInterpolate events))
  = (width / 2, height / 2).
Proof.
  unfold Globe.run.
  assert (Hgen : forall st,
            d3.translate
              (Globe.projection
                 (fold_left (Globe.step width height geoInterpolate) events st))
            = d3.translate (Globe.projection st)).
  { induction events as [ | e events IH]; intros st; cbn [fold_left].
    - reflexivity.
    - now rewrite IH, step_translate. }
  now rewrite Hgen.
Qed.

(** C7: under the orthographic projection, translated to the viewport
    centre as the component sets it, a redrawn endpoint is hidden exactly
    when its angular distance from the view centre (-lambda0, -phi0) exceeds
    PI/2; an endpoint at angular distance 0 is shown and drawn at the
    viewport centre; the view centre itself is such a point. *)
Theorem orthographic_endpoint_visibility (width height : R)
    (P : d3.GeoProjection) (d : R * R) :
  d3.translate P = (width / 2, height / 2) ->
  let e := Globe.redrawEndpoint P d in
  (Globe.display e = Globe.none <->
   d3.geoDistance d (viewCenter P) > PI / 2)
  /\ (d3.geoDistance d (viewCenter P) = 0 ->
      Globe.display e = Globe.inline
      /\ Globe.cx e = width / 2 /\ Globe.cy e = height / 2)
  /\ d3.geoDistance (viewCenter P) (viewCenter P) = 0.
Proof.
  intros Htr e. subst e. pose proof PI_RGT_0 as Hpi.
  split; [ | split ].
  - rewrite redrawEndpoint_display.
    destruct (Rle_dec (d3.geoDistance d (viewCenter P)) (PI / 2)) as [Hv | Hv];
      split; intros H; try discriminate; try reflexivity; lra.
  - intros H0. split.
    + rewrite redrawEndpoint_display, H0.
      destruct (Rle_dec 0 (PI / 2)) as [_ | Hn]; [reflexivity | exfalso; lra].
    + pose proof (redrawEndpoint_position P d) as Hpos.
      rewrite (project_centered P d H0), Htr in Hpos.
      now inversion Hpos.
  - apply geoDistance_self.
Qed.

Lemma orthographic_endpoint_visibility_initial_view :
  let P := Globe.projection (Globe.init 800 600) in
  d3.translate P = (800 / 2, 600 / 2)
  /\ d3.geoDistance (viewCenter P) (viewCenter P) = 0
  /\ Globe.display (Globe.redrawEndpoint P (viewCenter P)) = Globe.inline
  /\ Globe.cx (Globe.redrawEndpoint P (viewCenter P)) = 800 / 2
  /\ Globe.cy (Globe.redrawEndpoint P (viewCenter P)) = 600 / 2.
Proof.
  intros P.
  destruct (orthographic_endpoint_visibility 800 600 P (viewCenter P) eq_refl)
    as (_ & Hshown & Hself).
  split; [reflexivity | ]. split; [exact Hself | ]. exact (Hshown Hself).
Defined.

(** ** The zoom extent *)

Lemma clamp_in_extent (lo hi v : R) :
  lo <= hi -> lo <= Math.max lo (Math.min hi v) <= hi.
Proof.
  intros Hle. unfold Math.max, Math.min, Rmax, Rmin.
  destruct (Rle_dec hi v); destruct (Rle_dec lo _); lra.
Qed.






(** ** Clearing the path *)

Lemma Rmin_800_600 : Math.min 800 600 = 600.
Proof. unfold Math.min. apply Rmin_right. lra. Qed.

(** C9, the defect on the globe.  On an 800 x 600 globe that the user has
    dragged by 100 pixels, clearing the path (points becoming null) starts
    no transition at all and leaves the state as the drag left it, rotated
    away from the default view: the points effect of the globe has no
    branch for cleared points, where the Mercator component has one
    ([Reset view if points are cleared], 750 ms back to the identity
    transform, see [mercator_resets_when_path_cleared]). *)
Theorem globe_keeps_view_when_path_cleared :
  let geoInterpolate := fun (a b : R * R) (t : R) => a in
  let st := Globe.run 800 600 geoInterpolate [Globe.Drag 100 0] in
  Globe.tween (Globe.pointsEffect geoInterpolate st None orthodromic) = None
  /\ Globe.step 800 600 geoInterpolate st (Globe.Points None orthodromic) = st
  /\ d3.rotate (Globe.projection st)
     <> d3.rotate (Globe.projection (Globe.init 800 600)).
Proof.
  intros geoInterpolate st. split; [reflexivity | ]. split; [reflexivity | ].
  subst st. unfold Globe.run. cbn [fold_left Globe.step].
  unfold Globe.onDrag, Globe.init.
  cbn [Globe.projection d3.rotate d3.scale d3.setRotate2 fst snd].
  rewrite Rmin_800_600. unfold Globe.orElse, Globe.sens.
  destruct (Req_dec_T (600 / 2.2) 0) as [H0 | _]; [ exfalso; lra | ].
  intros Heq. inversion Heq as [Hr0]. lra.
Qed.

(** The Mercator component when the path is cleared: a transition of
    750 ms to the identity transform, on which the view then rests. *)
Lemma mercator_resets_when_path_cleared (width height : R)
    (projection : R * R -> R * R) (t : d3.Transform) :
  Mercator.pointsEffect width height projection None
  = Mercator.mkZoomTransition 750 d3.zoomIdentity
  /\ Mercator.step width height projection t (Mercator.Points None)
     = d3.zoomIdentity.
Proof. split; reflexivity. Qed.

(** The globe component when the path is cleared, whatever its state: the
    flight path and the endpoints are removed, no transition is started and
    the state stays as it is. *)
Lemma globe_ignores_cleared_path (width height : R)
    (geoInterpolate : R * R -> R * R -> R -> R * R)
    (st : Globe.State) (pathType : PathType) :
  Globe.pointsEffect geoInterpolate st None pathType
  = Globe.mkScene None [] None
  /\ Globe.step width height geoInterpolate st (Globe.Points None pathType)
     = st.
Proof. split; reflexivity. Qed.

(** ** A visualize request *)

(** C10: a request with two non-empty location names clears the displayed
    pair of points before the geocoding calls are awaited; if either call
    fails (rejects, or returns no coordinates) the request ends with no
    points, an error message, and the loading flag down, whatever was
    displayed before. *)
Theorem handleVisualize_failure_leaves_no_points (st : App.State)
    (from to : string) (replyFrom replyTo : App.Reply) (firstWins : bool) :
  App.falsy from = false -> App.falsy to = false ->
  let r := App.handleVisualize st from to replyFrom replyTo firstWins in
  (exists s, App.awaiting r = Some s /\ App.points s = None)
  /\ (App.failed (App.getCoordinatesForLocation from replyFrom)
      \/ App.failed (App.getCoordinatesForLocation to replyTo) ->
      App.points (App.finished r) = None
      /\ (exists msg, App.error (App.finished r) = Some msg)
      /\ App.isLoading (App.finished r) = false).
Proof.
  intros Hfrom Hto r. subst r.
  unfold App.handleVisualize, App.handleVisualize_begin.
  rewrite Hfrom, Hto. cbn [orb].
  split.
  - eexists. split; reflexivity.
  - cbn [App.awaiting App.finished].
    destruct replyFrom as [ | | [la | ] [lo | ]];
      destruct replyTo as [ | | [la' | ] [lo' | ]];
      destruct firstWins; cbn; intros [H | H]; try contradiction;
      (split; [reflexivity | split; [eexists; reflexivity | reflexivity]]).
Qed.

Lemma handleVisualize_failure_leaves_no_points_example :
  let shown :=
    Some (mkLocationPoint "Paris" paris, mkLocationPoint "New York" newYork) in
  let st := App.mkState shown false None App.globe orthodromic in
  let r := App.handleVisualize st "Paris" "Atlantis"
             (App.parsed (App.number 48.8566) (App.number 2.3522))
             App.emptyText true in
  App.falsy "Paris" = false /\ App.falsy "Atlantis" = false
  /\ App.failed (App.getCoordinatesForLocation "Atlantis" App.emptyText)
  /\ (exists s, App.awaiting r = Some s /\ App.points s = None)
  /\ App.points (App.finished r) = None
  /\ (exists msg, App.error (App.finished r) = Some msg)
  /\ App.isLoading (App.finished r) = false.
Proof.
  intros shown st r.
  destruct (handleVisualize_failure_leaves_no_points st "Paris" "Atlantis"
              (App.parsed (App.number 48.8566) (App.number 2.3522))
              App.emptyText true eq_refl eq_refl) as [Hawait Hfail].
  split; [reflexivity | ]. split; [reflexivity | ]. split; [exact I | ].
  split; [exact Hawait | ].
  exact (Hfail (or_intror I)).
Defined.

(** ** Where the two distances meet

    Two families of endpoint pairs on which the great circle and the rhumb
    line can be compared by elementary means: a common meridian (the two
    distances agree) and a common parallel (the rhumb line is at least as
    long). *)

Lemma atan2_asin (s : R) :
  0 <= s <= 1 -> Math.atan2 s (sqrt (1 - s * s)) = asin s.
Proof.
  intros [H0 H1]. unfold Math.atan2.
  destruct (Req_dec s 1) as [-> | Hne].
  - replace (1 - 1 * 1) with 0 by ring. rewrite sqrt_0, asin_1.
    destruct (Rlt_dec 0 0) as [Hbad | _]; [ exfalso; lra | ].
    destruct (Rlt_dec 0 1) as [_ | Hbad]; [ reflexivity | exfalso; lra ].
  - assert (Hpos : 0 < sqrt (1 - s * s)) by (apply sqrt_lt_R0; nra).
    destruct (Rlt_dec 0 (sqrt (1 - s * s))) as [_ | Hbad];
      [ | exfalso; lra ].
    symmetry. apply asin_atan. lra.
Qed.

Lemma asin_le (a b : R) : -1 <= a <= 1 -> -1 <= b <= 1 -> a <= b ->
  asin a <= asin b.
Proof.
  intros Ha Hb Hab.
  pose proof (asin_bound a) as [Ha1 Ha2].
  pose proof (asin_bound b) as [Hb1 Hb2].
  apply sin_incr_0; try assumption.
  now rewrite !sin_asin.
Qed.

(** The great-circle distance through [asin], whenever the haversine [a]
    lies in [0, 1]. *)
Lemma orthodromic_asin (p1 p2 : Coordinates) (a : R) :
  a = sin (deg2rad (lat p2 - lat p1) / 2) * sin (deg2rad (lat p2 - lat p1) / 2)
      + cos (deg2rad (lat p1)) * cos (deg2rad (lat p2))
        * sin (deg2rad (lon p2 - lon p1) / 2)
        * sin (deg2rad (lon p2 - lon p1) / 2) ->
  0 <= a <= 1 ->
  calculateOrthodromicDistance p1 p2 = 6371 * (2 * asin (sqrt a)).
Proof.
  intros Ha Hrange. unfold calculateOrthodromicDistance; cbv zeta.
  rewrite <- Ha.
  assert (Hs : 0 <= sqrt a <= 1).
  { split; [apply sqrt_pos | ].
    rewrite <- sqrt_1. apply sqrt_le_1; lra. }
  replace (1 - a) with (1 - sqrt a * sqrt a)
    by (rewrite sqrt_sqrt; lra).
  now rewrite atan2_asin.
Qed.

Lemma sin_Rabs (x : R) : - PI <= x <= PI -> sin (Rabs x) = Rabs (sin x).
Proof.
  intros [Hl Hu]. unfold Rabs at 1. destruct (Rcase_abs x) as [Hneg | Hpos].
  - rewrite sin_neg. rewrite Rabs_left1; [reflexivity | ].
    assert (0 <= sin (- x)) by (apply sin_ge_0; lra).
    rewrite sin_neg in H. lra.
  - rewrite Rabs_right; [reflexivity | ].
    apply Rle_ge, sin_ge_0; lra.
Qed.

(** X4: between two valid points on a common meridian the rhumb line is the
    great circle: the geodesic is the meridian itself and the two distances
    are equal. *)
Lemma meridian_distances_agree (p1 p2 : Coordinates) :
  valid p1 -> valid p2 -> lon p1 = lon p2 ->
  calculateLoxodromicDistance p1 p2 = calculateOrthodromicDistance p1 p2.
Proof.
  intros [[Hl1 Hu1] _] [[Hl2 Hu2] _] Hlon. pose proof PI_RGT_0 as Hpi.
  rewrite (meridian_distance p1 p2 Hlon).
  set (x := deg2rad (lat p2 - lat p1) / 2).
  assert (Hx : - (PI / 2) <= x <= PI / 2).
  { unfold x, deg2rad. split; nra. }
  rewrite (orthodromic_asin p1 p2 (sin x * sin x)).
  - replace (sin x * sin x) with (Rsqr (sin x)) by reflexivity.
    rewrite sqrt_Rsqr_abs, <- sin_Rabs by lra.
    rewrite asin_sin.
    + rewrite <- deg2rad_minus. fold x.
      replace (deg2rad (lat p2 - lat p1)) with (2 * x) by (unfold x; field).
      rewrite Rabs_mult, (Rabs_right 2) by lra. ring.
    + unfold Rabs. destruct (Rcase_abs x); lra.
  - fold x. rewrite Hlon.
    replace (deg2rad (lon p2 - lon p2) / 2) with 0
      by (unfold deg2rad; field).
    rewrite sin_0. ring.
  - pose proof (SIN_bound x). split; nra.
Qed.

(** Concavity of the sine on [0, PI/2], in the form used for a parallel. *)
Lemma sin_scale (q y : R) :
  0 <= q <= 1 -> 0 <= y <= PI / 2 -> q * sin y <= sin (q * y).
Proof.
  intros [Hq0 Hq1] [Hy0 Hy1]. pose proof PI_RGT_0 as Hpi.
  destruct (Req_dec y 0) as [-> | Hy].
  { rewrite Rmult_0_r, sin_0. lra. }
  set (f := fun t : R => sin (q * t) - q * sin t).
  set (f' := fun t : R => q * cos (q * t) - q * cos t).
  assert (Hder : forall c, 0 <= c <= y -> derivable_pt_lim f c (f' c)).
  { intros c _. unfold f, f'.
    apply (derivable_pt_lim_minus (fun t => sin (q * t)) (fun t => q * sin t)).
    - replace (q * cos (q * c)) with (cos (q * c) * (q * 1)) by ring.
      apply (derivable_pt_lim_comp (fun t => q * t) sin).
      + apply (derivable_pt_lim_scal id q c 1), derivable_pt_lim_id.
      + apply derivable_pt_lim_sin.
    - apply (derivable_pt_lim_scal sin q c (cos c)), derivable_pt_lim_sin. }
  destruct (MVT_cor2 f f' 0 y ltac:(lra) Hder) as (c & Hc & Hc0 & Hcy).
  unfold f, f' in Hc. rewrite Rmult_0_r, sin_0 in Hc.
  assert (Hcos : cos c <= cos (q * c)) by (apply cos_decr_1; nra).
  assert (Hprod : 0 <= (q * cos (q * c) - q * cos c) * (y - 0))
    by (apply Rmult_le_pos; nra).
  lra.
Qed.

(** X5: between two valid points on a common parallel (not a pole) the
    rhumb line runs along the parallel and is at least as long as the
    great-circle arc. *)
Lemma parallel_distances_ordered (p1 p2 : Coordinates) :
  valid p1 -> valid p2 -> nonpolar p1 -> lat p2 = lat p1 ->
  calculateOrthodromicDistance p1 p2 <= calculateLoxodromicDistance p1 p2.
Proof.
  intros Hv1 Hv2 Hnp Hlat. pose proof PI_RGT_0 as Hpi.
  pose proof (valid_lon_difference p1 p2 Hv1 Hv2) as Hdiff.
  pose proof (wrap_bound _ Hdiff) as Hwrap.
  destruct Hv1 as [[Hl1 Hu1] _]. unfold nonpolar in Hnp.
  set (q := cos (deg2rad (lat p1))).
  assert (Hq : 0 < q <= 1).
  { unfold q. split; [ | apply COS_bound ].
    apply cos_gt_0; unfold deg2rad; nra. }
  set (dL := lon p2 * PI / 180 - lon p1 * PI / 180) in *.
  set (w := Reference.wrap dL) in *.
  (* the rhumb line *)
  assert (Hlox : calculateLoxodromicDistance p1 p2 = 6371 * (q * Rabs w)).
  { rewrite calculateLoxodromicDistance_eq_rhumb.
    unfold Reference.rhumb; cbv zeta. fold dL w. rewrite Hlat.
    rewrite <- !deg2rad_spec.
    pose proof (tan_stretch_pos (lat p1) Hnp) as Hpos.
    rewrite deg2rad_spec in *.
    replace (tan (lat p1 * PI / 180 / 2 + PI / 4)
             / tan (lat p1 * PI / 180 / 2 + PI / 4)) with 1 by (field; lra).
    rewrite ln_1, Rabs_R0.
    destruct (Rgt_dec 0 (1 / 10 ^ 11)) as [Hbad | _]; [ exfalso; lra | ].
    rewrite <- deg2rad_spec. fold q.
    replace ((deg2rad (lat p1) - deg2rad (lat p1)) ^ 2 + q ^ 2 * w ^ 2)
      with (Rsqr (q * w)) by (unfold Rsqr; ring).
    rewrite sqrt_Rsqr_abs, Rabs_mult, (Rabs_right q) by lra. reflexivity. }
  (* the great circle *)
  set (h := deg2rad (lon p2 - lon p1) / 2).
  assert (Hsin : Rabs (sin h) = sin (Rabs w / 2)).
  { assert (Hh : h = dL / 2) by (unfold h, dL, deg2rad; field).
    rewrite Hh. unfold w, Reference.wrap.
    destruct (Rgt_dec (Rabs dL) PI) as [Hbig | Hsmall].
    - destruct (Rgt_dec dL 0) as [Hp | Hn].
      + rewrite (Rabs_right dL) in Hbig, Hdiff by lra.
        rewrite (Rabs_left1 (dL - 2 * PI)) by lra.
        replace (- (dL - 2 * PI) / 2) with (- (dL / 2) + PI) by field.
        rewrite neg_sin, sin_neg, Ropp_involutive.
        apply Rabs_right, Rle_ge, sin_ge_0; lra.
      + rewrite (Rabs_left1 dL) in Hbig, Hdiff by lra.
        rewrite (Rabs_right (dL + 2 * PI)) by lra.
        replace ((dL + 2 * PI) / 2) with (dL / 2 + PI) by field.
        rewrite neg_sin. rewrite Rabs_left1; [reflexivity | ].
        replace (dL / 2) with (- (- dL / 2)) by field.
        rewrite sin_neg.
        assert (0 <= sin (- dL / 2)) by (apply sin_ge_0; lra). lra.
    - replace (Rabs dL / 2) with (Rabs (dL / 2)).
      + symmetry. apply sin_Rabs.
        apply Rnot_gt_le, Rabs_bounds in Hsmall. lra.
      + unfold Rdiv. rewrite Rabs_mult, (Rabs_right (/ 2)) by lra.
        reflexivity. }
  rewrite Hlox.
  rewrite (orthodromic_asin p1 p2 (Rsqr (q * sin h))).
  - rewrite sqrt_Rsqr_abs, Rabs_mult, (Rabs_right q), Hsin by lra.
    apply Rabs_bounds in Hwrap.
    assert (Hy : 0 <= Rabs w / 2 <= PI / 2).
    { pose proof (Rabs_pos w). split; [lra | ].
      assert (Rabs w <= PI) by (apply Rabs_le; lra). lra. }
    pose proof (sin_scale q (Rabs w / 2) ltac:(lra) Hy) as Hscale.
    assert (Hs0 : 0 <= sin (Rabs w / 2)) by (apply sin_ge_0; lra).
    pose proof (SIN_bound (Rabs w / 2)) as Hsb.
    pose proof (SIN_bound (q * (Rabs w / 2))) as Hsb'.
    assert (Hle : asin (q * sin (Rabs w / 2)) <= q * (Rabs w / 2)).
    { rewrite <- (asin_sin (q * (Rabs w / 2))) by (split; nra).
      apply asin_le; try lra. split; nra. }
    lra.
  - rewrite Hlat. fold q h.
    replace (deg2rad (lat p1 - lat p1) / 2) with 0
      by (unfold deg2rad; field).
    rewrite sin_0. unfold Rsqr. ring.
  - pose proof (SIN_bound h) as Hsb. unfold Rsqr.
    assert (Hz : -1 <= q * sin h <= 1) by (split; nra).
    set (z := q * sin h) in *. clearbody z. split; nra.
Qed.

(** * Part III: further properties of the code *)

(** ** utils/geo: coincident points *)

Lemma sin_zero_quarter (x : R) :
  - (PI / 2) <= x <= PI / 2 -> sin x = 0 -> x = 0.
Proof.
  intros Hx H. pose proof PI_RGT_0 as Hpi.
  apply sin_inj; [ exact Hx | lra | now rewrite sin_0 ].
Qed.

Lemma sin_zero_half (h : R) :
  - PI <= h <= PI -> sin h = 0 -> h = 0 \/ Rabs h = PI.
Proof.
  intros [Hl Hu] H. pose proof PI_RGT_0 as Hpi.
  destruct (Rle_dec 0 h) as [Hpos | Hneg].
  - destruct (sin_eq_O_2PI_0 h Hpos ltac:(lra) H) as [H0 | [H0 | H0]].
    + now left.
    + right. rewrite H0. apply Rabs_right. lra.
    + exfalso. lra.
  - assert (Hs : sin (- h) = 0) by (rewrite sin_neg, H; ring).
    destruct (sin_eq_O_2PI_0 (- h) ltac:(lra) ltac:(lra) Hs)
      as [H0 | [H0 | H0]].
    + left. lra.
    + right. rewrite Rabs_left1 by lra. exact H0.
    + exfalso. lra.
Qed.

Lemma cos_latitude_pos (p : Coordinates) :
  nonpolar p -> 0 < cos (deg2rad (lat p)).
Proof.
  intros [Hl Hu]. pose proof PI_RGT_0 as Hpi.
  apply cos_gt_0; unfold deg2rad; nra.
Qed.

(** X3: for valid points away from the poles the great-circle distance is
    0 exactly when the two points are the same place: equal latitudes, and
    longitudes equal or a full turn apart (-180 and 180). *)
Theorem orthodromic_distance_zero (p1 p2 : Coordinates) :
  valid p1 -> valid p2 -> nonpolar p1 -> nonpolar p2 ->
  (calculateOrthodromicDistance p1 p2 = 0 <->
   lat p1 = lat p2 /\ (lon p1 = lon p2 \/ Rabs (lon p2 - lon p1) = 360)).
Proof.
  intros [[Hl1 Hu1] [Hm1 Hn1]] [[Hl2 Hu2] [Hm2 Hn2]] Hnp1 Hnp2.
  pose proof PI_RGT_0 as Hpi.
  pose proof (cos_latitude_pos p1 Hnp1) as Hc1.
  pose proof (cos_latitude_pos p2 Hnp2) as Hc2.
  unfold calculateOrthodromicDistance; cbv zeta.
  set (x := deg2rad (lat p2 - lat p1) / 2).
  set (h := deg2rad (lon p2 - lon p1) / 2).
  set (c1 := cos (deg2rad (lat p1))) in *.
  set (c2 := cos (deg2rad (lat p2))) in *.
  assert (Hx : - (PI / 2) <= x <= PI / 2) by (unfold x, deg2rad; split; nra).
  assert (Hh : - PI <= h <= PI) by (unfold h, deg2rad; split; nra).
  assert (Hcc : 0 < c1 * c2) by (apply Rmult_lt_0_compat; assumption).
  assert (Hxx : 0 <= sin x * sin x) by nra.
  assert (Hhh : 0 <= sin h * sin h) by nra.
  assert (Hterm : 0 <= c1 * c2 * (sin h * sin h))
    by (apply Rmult_le_pos; lra).
  replace (sin x * sin x + c1 * c2 * sin h * sin h)
    with (sin x * sin x + c1 * c2 * (sin h * sin h)) by ring.
  split.
  - intros H.
    assert (Hat : Math.atan2
                    (sqrt (sin x * sin x + c1 * c2 * (sin h * sin h)))
                    (sqrt (1 - (sin x * sin x + c1 * c2 * (sin h * sin h))))
                  = 0) by lra.
    apply atan2_eq_0 in Hat; [ | apply sqrt_pos ].
    destruct Hat as [Hsq _]. apply sqrt_eq_0 in Hsq; [ | lra ].
    assert (Hsx : sin x = 0) by nra.
    assert (Hsh : sin h = 0).
    { assert (Hz : c1 * c2 * (sin h * sin h) = 0) by lra.
      apply Rmult_integral in Hz. destruct Hz as [Hz | Hz]; [ lra | nra ]. }
    apply sin_zero_quarter in Hsx; [ | exact Hx ].
    apply sin_zero_half in Hsh; [ | exact Hh ].
    split.
    + unfold x, deg2rad in Hsx. nra.
    + destruct Hsh as [H0 | Hpi'].
      * left. unfold h, deg2rad in H0. nra.
      * right. unfold h, deg2rad in Hpi'.
        replace ((lon p2 - lon p1) * (PI / 180) / 2)
          with ((lon p2 - lon p1) * (PI / 360)) in Hpi' by field.
        rewrite Rabs_mult, (Rabs_right (PI / 360)) in Hpi' by lra.
        nra.
  - intros [Hlat Hlon].
    assert (Hsx : sin x = 0).
    { unfold x. rewrite Hlat.
      replace (deg2rad (lat p2 - lat p2) / 2) with 0
        by (unfold deg2rad; field).
      apply sin_0. }
    assert (Hsh : sin h = 0).
    { destruct Hlon as [Heq | Hfull].
      - unfold h. rewrite Heq.
        replace (deg2rad (lon p2 - lon p2) / 2) with 0
          by (unfold deg2rad; field).
        apply sin_0.
      - unfold Rabs in Hfull.
        destruct (Rcase_abs (lon p2 - lon p1)) as [Hneg | Hpos].
        + replace h with (- PI)
            by (unfold h, deg2rad;
                replace (lon p2 - lon p1) with (-360) by lra; field).
          rewrite sin_neg, sin_PI. ring.
        + replace h with PI
            by (unfold h, deg2rad; rewrite Hfull; field).
          apply sin_PI. }
    rewrite Hsx, Hsh.
    replace (0 * 0 + c1 * c2 * (0 * 0)) with 0 by ring.
    replace (1 - 0) with 1 by ring.
    rewrite sqrt_0, sqrt_1, atan2_0_1. ring.
Qed.

Lemma orthodromic_distance_zero_seam :
  valid (mkCoordinates 0 (-180)) /\ valid (mkCoordinates 0 180)
  /\ nonpolar (mkCoordinates 0 (-180)) /\ nonpolar (mkCoordinates 0 180)
  /\ calculateOrthodromicDistance (mkCoordinates 0 (-180))
       (mkCoordinates 0 180) = 0.
Proof.
  assert (H1 : valid (mkCoordinates 0 (-180)))
    by (unfold valid; cbn [lat lon]; lra).
  assert (H2 : valid (mkCoordinates 0 180))
    by (unfold valid; cbn [lat lon]; lra).
  assert (H3 : nonpolar (mkCoordinates 0 (-180)))
    by (unfold nonpolar; cbn [lat]; lra).
  assert (H4 : nonpolar (mkCoordinates 0 180))
    by (unfold nonpolar; cbn [lat]; lra).
  split; [exact H1 | ]. split; [exact H2 | ]. split; [exact H3 | ].
  split; [exact H4 | ].
  apply (proj2 (orthodromic_distance_zero _ _ H1 H2 H3 H4)).
  cbn [lat lon]. split; [reflexivity | ]. right.
  rewrite Rabs_right; lra.
Defined.

(** ** utils/geo: the rhumb line along a parallel and across the seam *)

Lemma wrap_opp (d : R) : Reference.wrap (- d) = - Reference.wrap d.
Proof.
  unfold Reference.wrap. rewrite Rabs_Ropp. pose proof PI_RGT_0 as Hpi.
  destruct (Rgt_dec (Rabs d) PI) as [Hbig | Hsmall]; [ | reflexivity ].
  destruct (Rgt_dec d 0) as [Hp | Hn];
    destruct (Rgt_dec (- d) 0) as [Hp' | Hn']; try lra.
  exfalso. assert (d = 0) by lra. subst d. rewrite Rabs_R0 in Hbig. lra.
Qed.

Lemma parallel_rhumb_formula (p1 p2 : Coordinates) :
  nonpolar p1 -> lat p2 = lat p1 ->
  calculateLoxodromicDistance p1 p2
  = 6371 * (cos (deg2rad (lat p1))
            * Rabs (Reference.wrap
                      (lon p2 * PI / 180 - lon p1 * PI / 180))).
Proof.
  intros Hnp Hlat. pose proof PI_RGT_0 as Hpi.
  pose proof (cos_latitude_pos p1 Hnp) as Hq.
  pose proof (tan_stretch_pos (lat p1) Hnp) as Hpos.
  rewrite calculateLoxodromicDistance_eq_rhumb.
  unfold Reference.rhumb; cbv zeta. rewrite Hlat, deg2rad_spec.
  rewrite deg2rad_spec in Hq.
  set (w := Reference.wrap _). set (q := cos (lat p1 * PI / 180)) in *.
  replace (tan (lat p1 * PI / 180 / 2 + PI / 4)
           / tan (lat p1 * PI / 180 / 2 + PI / 4)) with 1 by (field; lra).
  rewrite ln_1, Rabs_R0.
  destruct (Rgt_dec 0 (1 / 10 ^ 11)) as [Hbad | _]; [ exfalso; lra | ].
  replace ((lat p1 * PI / 180 - lat p1 * PI / 180) ^ 2 + q ^ 2 * w ^ 2)
    with (Rsqr (q * w)) by (unfold Rsqr; ring).
  rewrite sqrt_Rsqr_abs, Rabs_mult, (Rabs_right q) by lra. reflexivity.
Qed.

(** X6: between two valid points on one parallel (not a pole) the rhumb
    distance is the east-west limit 6371 * cos(phi) * |dLambda|, with dLambda
    the longitude difference taken the short way round; it is therefore at
    most 6371 * PI * cos(phi). *)
Theorem rhumb_along_parallel (p1 p2 : Coordinates) :
  valid p1 -> valid p2 -> nonpolar p1 -> lat p2 = lat p1 ->
  calculateLoxodromicDistance p1 p2
  = 6371 * (cos (deg2rad (lat p1))
            * Rabs (Reference.wrap
                      (lon p2 * PI / 180 - lon p1 * PI / 180)))
  /\ calculateLoxodromicDistance p1 p2
     <= 6371 * PI * cos (deg2rad (lat p1)).
Proof.
  intros Hv1 Hv2 Hnp Hlat.
  pose proof (parallel_rhumb_formula p1 p2 Hnp Hlat) as Heq.
  split; [exact Heq | ]. rewrite Heq.
  pose proof (wrap_bound _ (valid_lon_difference p1 p2 Hv1 Hv2)) as Hw.
  pose proof (cos_latitude_pos p1 Hnp) as Hq.
  pose proof (Rabs_pos (Reference.wrap
                          (lon p2 * PI / 180 - lon p1 * PI / 180))) as H0.
  nra.
Qed.

Lemma rhumb_along_parallel_antimeridian :
  valid equator170E /\ valid equator170W /\ nonpolar equator170E
  /\ lat equator170W = lat equator170E
  /\ calculateLoxodromicDistance equator170E equator170W
     = 6371 * (cos (deg2rad (lat equator170E))
               * Rabs (Reference.wrap
                         (lon equator170W * PI / 180
                          - lon equator170E * PI / 180)))
  /\ calculateLoxodromicDistance equator170E equator170W
     <= 6371 * PI * cos (deg2rad (lat equator170E)).
Proof.
  assert (H1 : valid equator170E)
    by (unfold valid, equator170E; cbn [lat lon]; lra).
  assert (H2 : valid equator170W)
    by (unfold valid, equator170W; cbn [lat lon]; lra).
  assert (H3 : nonpolar equator170E)
    by (unfold nonpolar, equator170E; cbn [lat]; lra).
  split; [exact H1 | ]. split; [exact H2 | ]. split; [exact H3 | ].
  split; [reflexivity | ].
  exact (rhumb_along_parallel equator170E equator170W H1 H2 H3 eq_refl).
Defined.

Lemma half_turn_sine (dL : R) :
  Rabs dL <= 2 * PI ->
  Rabs (sin (dL / 2)) = sin (Rabs (Reference.wrap dL) / 2).
Proof.
  intros Hdiff. pose proof PI_RGT_0 as Hpi. unfold Reference.wrap.
  destruct (Rgt_dec (Rabs dL) PI) as [Hbig | Hsmall].
  - destruct (Rgt_dec dL 0) as [Hp | Hn].
    + rewrite (Rabs_right dL) in Hbig, Hdiff by lra.
      rewrite (Rabs_left1 (dL - 2 * PI)) by lra.
      replace (- (dL - 2 * PI) / 2) with (- (dL / 2) + PI) by field.
      rewrite neg_sin, sin_neg, Ropp_involutive.
      apply Rabs_right, Rle_ge, sin_ge_0; lra.
    + rewrite (Rabs_left1 dL) in Hbig, Hdiff by lra.
      rewrite (Rabs_right (dL + 2 * PI)) by lra.
      replace ((dL + 2 * PI) / 2) with (dL / 2 + PI) by field.
      rewrite neg_sin. rewrite Rabs_left1; [reflexivity | ].
      replace (dL / 2) with (- (- dL / 2)) by field.
      rewrite sin_neg.
      assert (0 <= sin (- dL / 2)) by (apply sin_ge_0; lra). lra.
  - replace (Rabs dL / 2) with (Rabs (dL / 2)).
    + symmetry. apply sin_Rabs.
      apply Rnot_gt_le, Rabs_bounds in Hsmall. lra.
    + unfold Rdiv. rewrite Rabs_mult, (Rabs_right (/ 2)) by lra.
      reflexivity.
Qed.

Lemma parallel_orthodromic_formula (p1 p2 : Coordinates) :
  valid p1 -> valid p2 -> nonpolar p1 -> lat p2 = lat p1 ->
  calculateOrthodromicDistance p1 p2
  = 6371 * (2 * asin (cos (deg2rad (lat p1))
                      * sin (Rabs (Reference.wrap
                                     (lon p2 * PI / 180 - lon p1 * PI / 180))
                             / 2))).
Proof.
  intros Hv1 Hv2 Hnp Hlat. pose proof PI_RGT_0 as Hpi.
  pose proof (valid_lon_difference p1 p2 Hv1 Hv2) as Hdiff.
  pose proof (cos_latitude_pos p1 Hnp) as Hq0.
  pose proof (COS_bound (deg2rad (lat p1))) as [_ Hq1].
  set (q := cos (deg2rad (lat p1))) in *.
  set (dL := lon p2 * PI / 180 - lon p1 * PI / 180) in *.
  set (h := deg2rad (lon p2 - lon p1) / 2).
  assert (Hh : h = dL / 2) by (unfold h, dL, deg2rad; field).
  pose proof (half_turn_sine dL Hdiff) as Hsin. rewrite <- Hh in Hsin.
  rewrite (orthodromic_asin p1 p2 (Rsqr (q * sin h))).
  - rewrite sqrt_Rsqr_abs, Rabs_mult, (Rabs_right q), Hsin by lra.
    reflexivity.
  - rewrite Hlat. fold q h.
    replace (deg2rad (lat p1 - lat p1) / 2) with 0
      by (unfold deg2rad; field).
    rewrite sin_0. unfold Rsqr. ring.
  - pose proof (SIN_bound h) as Hsb. unfold Rsqr.
    assert (Hz : -1 <= q * sin h <= 1) by (split; nra).
    set (z := q * sin h) in *. clearbody z. split; nra.
Qed.

(** X7: between two valid points on the equator the rhumb line is the
    great circle: the two distances agree and equal 6371 * |dLambda|, with
    dLambda the longitude difference taken the short way round. *)
Theorem equator_distances_agree (p1 p2 : Coordinates) :
  valid p1 -> valid p2 -> lat p1 = 0 -> lat p2 = 0 ->
  calculateLoxodromicDistance p1 p2 = calculateOrthodromicDistance p1 p2
  /\ calculateOrthodromicDistance p1 p2
     = 6371 * Rabs (Reference.wrap (lon p2 * PI / 180 - lon p1 * PI / 180)).
Proof.
  intros Hv1 Hv2 H1 H2. pose proof PI_RGT_0 as Hpi.
  assert (Hnp : nonpolar p1) by (unfold nonpolar; rewrite H1; lra).
  assert (Hlat : lat p2 = lat p1) by congruence.
  pose proof (parallel_rhumb_formula p1 p2 Hnp Hlat) as Hlox.
  pose proof (parallel_orthodromic_formula p1 p2 Hv1 Hv2 Hnp Hlat) as Hort.
  pose proof (wrap_bound _ (valid_lon_difference p1 p2 Hv1 Hv2)) as Hw.
  replace (cos (deg2rad (lat p1))) with 1 in Hlox, Hort
    by (rewrite H1; unfold deg2rad; rewrite Rmult_0_l, cos_0; reflexivity).
  set (w := Reference.wrap _) in *.
  rewrite Rmult_1_l in Hlox, Hort.
  pose proof (Rabs_pos w) as H0.
  rewrite asin_sin in Hort by lra.
  rewrite Hlox, Hort. split; field.
Qed.

Lemma equator_distances_agree_antimeridian :
  valid equator170E /\ valid equator170W
  /\ lat equator170E = 0 /\ lat equator170W = 0
  /\ calculateLoxodromicDistance equator170E equator170W
     = calculateOrthodromicDistance equator170E equator170W
  /\ calculateOrthodromicDistance equator170E equator170W
     = 6371 * Rabs (Reference.wrap
                      (lon equator170W * PI / 180
                       - lon equator170E * PI / 180)).
Proof.
  assert (H1 : valid equator170E)
    by (unfold valid, equator170E; cbn [lat lon]; lra).
  assert (H2 : valid equator170W)
    by (unfold valid, equator170W; cbn [lat lon]; lra).
  split; [exact H1 | ]. split; [exact H2 | ].
  split; [reflexivity | ]. split; [reflexivity | ].
  exact (equator_distances_agree equator170E equator170W H1 H2
           eq_refl eq_refl).
Defined.

Lemma deltaPsi_difference (p1 p2 : Coordinates) :
  nonpolar p1 -> nonpolar p2 ->
  deltaPsi p1 p2
  = ln (tan (lat p2 * PI / 180 / 2 + PI / 4))
    - ln (tan (lat p1 * PI / 180 / 2 + PI / 4)).
Proof.
  intros H1 H2. unfold deltaPsi, Math.log. rewrite !deg2rad_spec.
  apply ln_quotient; now apply tan_stretch_pos.
Qed.

(** X8: for points away from the poles the rhumb distance does not depend
    on the order of the two points, provided they share a latitude or the
    difference of their stretched latitudes is above the east-west guard
    1e-11 (inside the guard, [q] is the cosine of the first point's latitude
    only). *)
Theorem rhumb_distance_symmetric (p1 p2 : Coordinates) :
  nonpolar p1 -> nonpolar p2 ->
  lat p1 = lat p2 \/ Rabs (deltaPsi p1 p2) > 10 / 10 ^ 12 ->
  calculateLoxodromicDistance p1 p2 = calculateLoxodromicDistance p2 p1.
Proof.
  intros Hn1 Hn2 Hcase.
  pose proof (deltaPsi_difference p1 p2 Hn1 Hn2) as H12.
  pose proof (deltaPsi_difference p2 p1 Hn2 Hn1) as H21.
  rewrite !calculateLoxodromicDistance_eq_rhumb.
  unfold Reference.rhumb; cbv zeta.
  replace (lon p1 * PI / 180 - lon p2 * PI / 180)
    with (- (lon p2 * PI / 180 - lon p1 * PI / 180)) by ring.
  rewrite wrap_opp.
  set (w := Reference.wrap _).
  assert (Hd12 : ln (tan (lat p2 * PI / 180 / 2 + PI / 4)
                     / tan (lat p1 * PI / 180 / 2 + PI / 4))
                 = deltaPsi p1 p2)
    by (unfold deltaPsi, Math.log; now rewrite !deg2rad_spec).
  assert (Hd21 : ln (tan (lat p1 * PI / 180 / 2 + PI / 4)
                     / tan (lat p2 * PI / 180 / 2 + PI / 4))
                 = - deltaPsi p1 p2)
    by (transitivity (deltaPsi p2 p1);
        [ unfold deltaPsi, Math.log; now rewrite !deg2rad_spec
        | rewrite H12, H21; ring ]).
  rewrite Hd12, Hd21, Rabs_Ropp.
  set (d := deltaPsi p1 p2) in *.
  f_equal. f_equal.
  destruct Hcase as [Heq | Hfar].
  - rewrite Heq.
    destruct (Rgt_dec (Rabs d) (1 / 10 ^ 11)); unfold Rdiv; ring.
  - replace (10 / 10 ^ 12) with (1 / 10 ^ 11) in Hfar by field.
    destruct (Rgt_dec (Rabs d) (1 / 10 ^ 11)) as [_ | Hn];
      [ | exfalso; exact (Hn Hfar) ].
    assert (Hd : d <> 0).
    { intros H0. rewrite H0, Rabs_R0 in Hfar. lra. }
    field. exact Hd.
Qed.

Lemma deltaPsi_south60_north60 : Rabs (deltaPsi south60 north60) > 10 / 10 ^ 12.
Proof.
  pose proof PI_RGT_0 as Hpi.
  assert (Hs : nonpolar south60) by (unfold nonpolar, south60; cbn [lat]; lra).
  assert (Hn : nonpolar north60) by (unfold nonpolar, north60; cbn [lat]; lra).
  rewrite (deltaPsi_difference _ _ Hs Hn).
  unfold south60, north60. cbn [lat].
  replace (60 * PI / 180 / 2 + PI / 4) with (5 * PI / 12) by field.
  replace (-60 * PI / 180 / 2 + PI / 4) with (PI / 12) by field.
  assert (H3 : 0 < sqrt 3) by (apply sqrt_lt_R0; lra).
  assert (H33 : sqrt 3 * sqrt 3 = 3) by (apply sqrt_sqrt; lra).
  assert (Hhi : sqrt 3 < tan (5 * PI / 12)).
  { rewrite <- tan_PI3. apply tan_increasing; lra. }
  assert (Hlo : tan (PI / 12) < 1 / sqrt 3).
  { rewrite <- tan_PI6. apply tan_increasing; lra. }
  assert (Hlo0 : 0 < tan (PI / 12)) by (apply tan_gt_0; lra).
  assert (Hlo1 : tan (PI / 12) < 1).
  { apply Rlt_trans with (1 / sqrt 3); [exact Hlo | ].
    apply Rmult_lt_reg_r with (sqrt 3); [exact H3 | ].
    unfold Rdiv. rewrite Rmult_assoc, Rinv_l by lra. nra. }
  assert (Hneg : ln (tan (PI / 12)) < 0)
    by (rewrite <- ln_1; now apply ln_increasing).
  assert (Hbig : 1 < sqrt 3) by nra.
  assert (Hpos : 0 < ln (tan (5 * PI / 12))).
  { rewrite <- ln_1. apply ln_increasing; lra. }
  assert (Hfar : / 2 < ln (tan (5 * PI / 12)) - ln (tan (PI / 12))).
  { rewrite <- ln_quotient by lra.
    apply Rlt_trans with (ln 2); [exact ln_lt_2 | ].
    apply ln_increasing; [lra | ].
    apply Rmult_lt_reg_r with (tan (PI / 12)); [exact Hlo0 | ].
    unfold Rdiv. rewrite Rmult_assoc, Rinv_l by lra.
    assert (tan (PI / 12) * sqrt 3 < 1).
    { apply Rmult_lt_reg_r with (/ sqrt 3);
        [ now apply Rinv_0_lt_compat | ].
      rewrite Rmult_assoc, Rinv_r by lra. lra. }
    nra. }
  rewrite Rabs_right by lra. lra.
Qed.

Lemma rhumb_distance_symmetric_south60_north60 :
  nonpolar south60 /\ nonpolar north60
  /\ Rabs (deltaPsi south60 north60) > 10 / 10 ^ 12
  /\ calculateLoxodromicDistance south60 north60
     = calculateLoxodromicDistance north60 south60.
Proof.
  assert (Hs : nonpolar south60) by (unfold nonpolar, south60; cbn [lat]; lra).
  assert (Hn : nonpolar north60) by (unfold nonpolar, north60; cbn [lat]; lra).
  split; [exact Hs | ]. split; [exact Hn | ].
  split; [exact deltaPsi_south60_north60 | ].
  exact (rhumb_distance_symmetric south60 north60 Hs Hn
           (or_intror deltaPsi_south60_north60)).
Defined.

(** X9: the two names of the antimeridian are one meridian to both
    distance functions: from (a, -180) to (b, 180) the rhumb distance is
    6371 times the latitude difference in radians, and the great-circle
    distance is the same as between (a, 180) and (b, 180). *)
Theorem antimeridian_is_one_meridian (a b : R) :
  calculateLoxodromicDistance (mkCoordinates a (-180)) (mkCoordinates b 180)
  = 6371 * Rabs (deg2rad b - deg2rad a)
  /\ calculateOrthodromicDistance (mkCoordinates a (-180))
       (mkCoordinates b 180)
     = calculateOrthodromicDistance (mkCoordinates a 180)
         (mkCoordinates b 180).
Proof.
  pose proof PI_RGT_0 as Hpi. split.
  - unfold calculateLoxodromicDistance, Math.abs; cbv zeta. cbn [lat lon].
    replace (deg2rad (180 - -180)) with (2 * PI)
      by (unfold deg2rad; field).
    rewrite (Rabs_right (2 * PI)) by lra.
    destruct (Rgt_dec (2 * PI) PI) as [_ | Hn]; [ | exfalso; lra ].
    destruct (Rgt_dec (2 * PI) 0) as [_ | Hn]; [ | exfalso; lra ].
    set (dPhi := deg2rad b - deg2rad a).
    set (q := if Rgt_dec _ _ then _ else _).
    replace (dPhi * dPhi
             + q * q * - (2 * PI - 2 * PI) * - (2 * PI - 2 * PI))
      with (Rsqr dPhi) by (unfold Rsqr; ring).
    rewrite sqrt_Rsqr_abs. ring.
  - unfold calculateOrthodromicDistance; cbv zeta. cbn [lat lon].
    replace (deg2rad (180 - -180) / 2) with PI by (unfold deg2rad; field).
    replace (deg2rad (180 - 180) / 2) with 0 by (unfold deg2rad; field).
    rewrite sin_PI, sin_0. reflexivity.
Qed.

(** ** GlobeVisualization.tsx: more on the sampled rhumb line *)

Lemma quotient_le (a b d : R) :
  (0 < d /\ a <= b) \/ (d < 0 /\ b <= a) -> a / d <= b / d.
Proof.
  intros H. assert (Hd : d <> 0) by lra.
  assert (Ha : a = a / d * d) by (field; exact Hd).
  assert (Hb : b = b / d * d) by (field; exact Hd).
  set (x := a / d) in *. set (y := b / d) in *. clearbody x y.
  destruct H as [[Hpos Hab] | [Hneg Hab]]; nra.
Qed.

Lemma sampleFraction_monotone (start end_ : Coordinates) (i j : nat) :
  nonpolar start -> nonpolar end_ -> (i <= j)%nat -> (j <= numPoints)%nat ->
  sampleFraction start end_ i <= sampleFraction start end_ j.
Proof.
  intros Hs He Hij Hj. unfold nonpolar in Hs, He.
  pose proof PI_RGT_0 as Hpi.
  pose proof (sample_index_fraction i ltac:(lia)) as Hfi.
  pose proof (sample_index_fraction j Hj) as Hfj.
  assert (Hfij : INR i / INR numPoints <= INR j / INR numPoints).
  { apply le_INR in Hij. rewrite INR_numPoints. lra. }
  unfold sampleFraction, Math.log, Math.abs; cbv zeta.
  set (fi := INR i / INR numPoints) in *.
  set (fj := INR j / INR numPoints) in *.
  rewrite ln_quotient by (apply tan_stretch_pos; assumption).
  set (Li := lat start + (lat end_ - lat start) * fi).
  set (Lj := lat start + (lat end_ - lat start) * fj).
  replace ((lat start * PI / 180
            + (lat end_ * PI / 180 - lat start * PI / 180) * fi) / 2 + PI / 4)
    with (Li * PI / 180 / 2 + PI / 4) by (unfold Li; field).
  replace ((lat start * PI / 180
            + (lat end_ * PI / 180 - lat start * PI / 180) * fj) / 2 + PI / 4)
    with (Lj * PI / 180 / 2 + PI / 4) by (unfold Lj; field).
  set (psi1 := ln (tan (lat start * PI / 180 / 2 + PI / 4))).
  set (psi2 := ln (tan (lat end_ * PI / 180 / 2 + PI / 4))).
  destruct (Rlt_dec (Rabs (psi2 - psi1)) (1 / 10 ^ 10)) as [Hew | Hew];
    [ exact Hfij | ].
  assert (Hfar : 0 < Rabs (psi2 - psi1)) by lra.
  assert (H3 : psi2 - psi1 <> 0)
    by (intros H0; rewrite H0, Rabs_R0 in Hfar; lra).
  apply quotient_le.
  destruct (Rle_dec (lat start) (lat end_)) as [Hle | Hge].
  - left.
    assert (HLi : lat start <= Li) by (unfold Li; nra).
    assert (HLij : Li <= Lj) by (unfold Li, Lj; nra).
    assert (HLj : Lj <= lat end_) by (unfold Lj; nra).
    assert (H12 : psi1 <= psi2) by (apply ln_tan_stretch_le; lra).
    assert (Hij' : ln (tan (Li * PI / 180 / 2 + PI / 4))
                   <= ln (tan (Lj * PI / 180 / 2 + PI / 4)))
      by (apply ln_tan_stretch_le; lra).
    lra.
  - right.
    assert (HLi : Li <= lat start) by (unfold Li; nra).
    assert (HLij : Lj <= Li) by (unfold Li, Lj; nra).
    assert (HLj : lat end_ <= Lj) by (unfold Lj; nra).
    assert (H12 : psi2 <= psi1) by (apply ln_tan_stretch_le; lra).
    assert (Hij' : ln (tan (Lj * PI / 180 / 2 + PI / 4))
                   <= ln (tan (Li * PI / 180 / 2 + PI / 4)))
      by (apply ln_tan_stretch_le; lra).
    lra.
Qed.

Lemma sampleFraction_first (start end_ : Coordinates) :
  sampleFraction start end_ 0 = 0.
Proof.
  unfold sampleFraction; cbv zeta. cbn [INR].
  replace (0 / INR numPoints) with 0 by (unfold Rdiv; ring).
  rewrite Rmult_0_r, Rplus_0_r.
  destruct (Rlt_dec _ _); [ reflexivity | ].
  unfold Rdiv. ring.
Qed.

Lemma sampleFraction_last (start end_ : Coordinates) :
  nonpolar start -> nonpolar end_ ->
  sampleFraction start end_ numPoints = 1.
Proof.
  intros Hs He. unfold sampleFraction, Math.log, Math.abs; cbv zeta.
  replace (INR numPoints / INR numPoints) with 1
    by (rewrite INR_numPoints; field).
  replace (lat start * PI / 180
           + (lat end_ * PI / 180 - lat start * PI / 180) * 1)
    with (lat end_ * PI / 180) by ring.
  rewrite ln_quotient by (apply tan_stretch_pos; assumption).
  set (d := _ - _).
  destruct (Rlt_dec (Rabs d) (1 / 10 ^ 10)) as [_ | Hfar]; [ reflexivity | ].
  field. intros H0. apply Hfar. rewrite H0, Rabs_R0. lra.
Qed.

(** X10: for valid endpoints away from the poles the sampled rhumb line
    starts exactly at the start point and ends at the end point, whose
    longitude is given either as it is or shifted by a full turn of 360
    degrees (the antimeridian adjustment). *)
Theorem loxodromic_path_endpoints (start end_ : Coordinates) :
  valid start -> valid end_ -> nonpolar start -> nonpolar end_ ->
  let path := loxodromicCoords start end_ in
  nth 0 path (0, 0) = (lon start, lat start)
  /\ latAt path numPoints = lat end_
  /\ (lonAt path numPoints = lon end_
      \/ lonAt path numPoints = lon end_ - 360
      \/ lonAt path numPoints = lon end_ + 360).
Proof.
  intros Hvs Hve Hs He path. subst path. split; [ | split ].
  - rewrite loxodromicCoords_nth by (unfold numPoints; lia).
    rewrite loxodromicSample_shape, sampleFraction_first. cbn [INR].
    f_equal; unfold Rdiv; ring.
  - rewrite latAt_sample by apply le_n.
    rewrite INR_numPoints. field.
  - rewrite lonAt_sample by apply le_n.
    rewrite sampleFraction_last by assumption.
    rewrite adjustedEndLon_degrees.
    destruct (Rgt_dec (Rabs (lon end_ - lon start)) 180) as [_ | _].
    + destruct (Rgt_dec (lon end_) (lon start)) as [_ | _].
      * right; left. ring.
      * right; right. ring.
    + left. ring.
Qed.

Lemma loxodromic_path_endpoints_paris_newYork :
  valid paris /\ valid newYork /\ nonpolar paris /\ nonpolar newYork
  /\ let path := loxodromicCoords paris newYork in
     nth 0 path (0, 0) = (lon paris, lat paris)
     /\ latAt path numPoints = lat newYork
     /\ (lonAt path numPoints = lon newYork
         \/ lonAt path numPoints = lon newYork - 360
         \/ lonAt path numPoints = lon newYork + 360).
Proof.
  assert (H1 : valid paris) by (unfold valid, paris; cbn [lat lon]; lra).
  assert (H2 : valid newYork) by (unfold valid, newYork; cbn [lat lon]; lra).
  assert (H3 : nonpolar paris) by (unfold nonpolar, paris; cbn [lat]; lra).
  assert (H4 : nonpolar newYork) by (unfold nonpolar, newYork; cbn [lat]; lra).
  split; [exact H1 | ]. split; [exact H2 | ]. split; [exact H3 | ].
  split; [exact H4 | ].
  exact (loxodromic_path_endpoints paris newYork H1 H2 H3 H4).
Defined.

(** X11: between two points on one meridian (away from the poles) every
    vertex of the sampled rhumb line has the longitude of that meridian. *)
Theorem loxodromic_path_on_meridian (start end_ : Coordinates) :
  nonpolar start -> nonpolar end_ -> lon end_ = lon start ->
  forall i, (i <= numPoints)%nat ->
    lonAt (loxodromicCoords start end_) i = lon start.
Proof.
  intros _ _ Hlon i Hi. rewrite lonAt_sample by exact Hi.
  rewrite adjustedEndLon_degrees, Hlon.
  replace (lon start - lon start) with 0 by ring. rewrite Rabs_R0.
  destruct (Rgt_dec 0 180) as [Hbad | _]; [ exfalso; lra | ring ].
Qed.

Lemma loxodromic_path_on_meridian_south60 :
  nonpolar south60 /\ nonpolar (mkCoordinates 60 0)
  /\ lon (mkCoordinates 60 0) = lon south60 /\ (25 <= numPoints)%nat
  /\ lonAt (loxodromicCoords south60 (mkCoordinates 60 0)) 25 = lon south60.
Proof.
  assert (H1 : nonpolar south60)
    by (unfold nonpolar, south60; cbn [lat]; lra).
  assert (H2 : nonpolar (mkCoordinates 60 0))
    by (unfold nonpolar; cbn [lat]; lra).
  assert (H3 : (25 <= numPoints)%nat) by (unfold numPoints; lia).
  split; [exact H1 | ]. split; [exact H2 | ]. split; [reflexivity | ].
  split; [exact H3 | ].
  exact (loxodromic_path_on_meridian south60 (mkCoordinates 60 0) H1 H2
           eq_refl 25%nat H3).
Defined.

(** X12: for valid endpoints away from the poles the longitudes of the
    sampled rhumb line never turn back (they are non-decreasing along the
    whole path, or non-increasing along the whole path), and no two
    consecutive vertices are more than 180 degrees of longitude apart. *)
Theorem loxodromic_path_longitudes_monotone (start end_ : Coordinates) :
  valid start -> valid end_ -> nonpolar start -> nonpolar end_ ->
  let path := loxodromicCoords start end_ in
  ((forall i, (i < numPoints)%nat -> lonAt path i <= lonAt path (S i))
   \/ (forall i, (i < numPoints)%nat -> lonAt path (S i) <= lonAt path i))
  /\ (forall i, (i < numPoints)%nat ->
        Rabs (lonAt path (S i) - lonAt path i) <= 180).
Proof.
  intros Hvs Hve Hs He path. subst path.
  pose proof (adjustedEndLon_span start end_ Hvs Hve) as Hspan.
  apply Rabs_bounds in Hspan.
  set (D := adjustedEndLon start end_ - lon start) in *.
  assert (Hstep : forall i, (i < numPoints)%nat ->
            lonAt (loxodromicCoords start end_) (S i)
            - lonAt (loxodromicCoords start end_) i
            = D * (sampleFraction start end_ (S i)
                   - sampleFraction start end_ i)).
  { intros i Hi. rewrite !lonAt_sample by lia. fold D. ring. }
  assert (Hinc : forall i, (i < numPoints)%nat ->
            0 <= sampleFraction start end_ (S i)
                 - sampleFraction start end_ i <= 1).
  { intros i Hi.
    pose proof (sampleFraction_monotone start end_ i (S i) Hs He
                  ltac:(lia) ltac:(lia)).
    pose proof (sampleFraction_unit start end_ i Hs He ltac:(lia)).
    pose proof (sampleFraction_unit start end_ (S i) Hs He ltac:(lia)).
    lra. }
  split.
  - destruct (Rle_dec 0 D) as [Hpos | Hneg].
    + left. intros i Hi. specialize (Hstep i Hi). specialize (Hinc i Hi).
      nra.
    + right. intros i Hi. specialize (Hstep i Hi). specialize (Hinc i Hi).
      nra.
  - intros i Hi. rewrite (Hstep i Hi). specialize (Hinc i Hi).
    apply Rabs_le. split; nra.
Qed.

Lemma loxodromic_path_longitudes_monotone_paris_newYork :
  valid paris /\ valid newYork /\ nonpolar paris /\ nonpolar newYork
  /\ let path := loxodromicCoords paris newYork in
     ((forall i, (i < numPoints)%nat -> lonAt path i <= lonAt path (S i))
      \/ (forall i, (i < numPoints)%nat -> lonAt path (S i) <= lonAt path i))
     /\ (forall i, (i < numPoints)%nat ->
           Rabs (lonAt path (S i) - lonAt path i) <= 180).
Proof.
  assert (H1 : valid paris) by (unfold valid, paris; cbn [lat lon]; lra).
  assert (H2 : valid newYork) by (unfold valid, newYork; cbn [lat lon]; lra).
  assert (H3 : nonpolar paris) by (unfold nonpolar, paris; cbn [lat]; lra).
  assert (H4 : nonpolar newYork) by (unfold nonpolar, newYork; cbn [lat]; lra).
  split; [exact H1 | ]. split; [exact H2 | ]. split; [exact H3 | ].
  split; [exact H4 | ].
  exact (loxodromic_path_longitudes_monotone paris newYork H1 H2 H3 H4).
Defined.

(** X24: between two valid endpoints on one parallel, strictly between the
    poles, the sampled rhumb line has numPoints+1 vertices, all at the shared
    latitude, and its longitudes run in equal steps from the start longitude
    to the antimeridian-adjusted end longitude, which is at most 180 degrees
    away: vertex i has longitude start + (target - start) * i / 50.  So the
    longitudes are strictly increasing when the target lies east, strictly
    decreasing when it lies west, and constant only when the two coincide;
    consecutive vertices are at most 3.6 degrees apart.  The pair (0, 170),
    (0, -170) across the antimeridian is an instance, running east from 170
    to 190. *)
Theorem loxodromic_path_on_parallel (start end_ : Coordinates) :
  valid start -> valid end_ -> nonpolar start -> lat end_ = lat start ->
  let path := loxodromicCoords start end_ in
  let target := adjustedEndLon start end_ in
  List.length path = S numPoints
  /\ (forall i, (i <= numPoints)%nat -> latAt path i = lat start)
  /\ (forall i, (i <= numPoints)%nat ->
        lonAt path i = lon start + (target - lon start) * (INR i / 50))
  /\ lonAt path 0 = lon start
  /\ lonAt path numPoints = target
  /\ Rabs (target - lon start) <= 180
  /\ (lon start < target ->
      forall i, (i < numPoints)%nat -> lonAt path i < lonAt path (S i))
  /\ (target < lon start ->
      forall i, (i < numPoints)%nat -> lonAt path (S i) < lonAt path i)
  /\ (target = lon start ->
      forall i, (i <= numPoints)%nat -> lonAt path i = lon start)
  /\ (forall i, (i < numPoints)%nat ->
        Rabs (lonAt path (S i) - lonAt path i) <= 3.6).
Proof.
  intros Hvs Hve Hnp Heq path target. subst path target.
  pose proof (adjustedEndLon_span start end_ Hvs Hve) as Hspan.
  pose proof (Rabs_bounds _ _ Hspan) as Hb.
  set (A := adjustedEndLon start end_) in *.
  assert (Hstep : forall i, (i < numPoints)%nat ->
            lonAt (loxodromicCoords start end_) (S i)
            - lonAt (loxodromicCoords start end_) i = (A - lon start) / 50)
    by (intros i Hi; now apply lonAt_parallel_step).
  assert (Hat : forall i, (i <= numPoints)%nat ->
            lonAt (loxodromicCoords start end_) i
            = lon start + (A - lon start) * (INR i / 50))
    by (intros i Hi; now apply lonAt_parallel).
  split; [ apply loxodromicCoords_length | ].
  split; [ intros i Hi; rewrite latAt_sample, Heq by exact Hi; ring | ].
  split; [ exact Hat | ].
  split; [ rewrite Hat by (unfold numPoints; lia); cbn [INR]; lra | ].
  split; [ rewrite Hat, INR_numPoints by apply le_n; lra | ].
  split; [ exact Hspan | ].
  split; [ intros Hpos i Hi; specialize (Hstep i Hi); lra | ].
  split; [ intros Hneg i Hi; specialize (Hstep i Hi); lra | ].
  split; [ intros Hzero i Hi; rewrite Hat, Hzero by exact Hi; ring | ].
  intros i Hi. rewrite (Hstep i Hi). apply Rabs_le. lra.
Qed.

Lemma loxodromic_path_on_parallel_antimeridian :
  valid equator170E /\ valid equator170W /\ nonpolar equator170E
  /\ lat equator170W = lat equator170E
  /\ let path := loxodromicCoords equator170E equator170W in
     let target := adjustedEndLon equator170E equator170W in
     List.length path = S numPoints
     /\ (forall i, (i <= numPoints)%nat -> latAt path i = lat equator170E)
     /\ (forall i, (i <= numPoints)%nat ->
           lonAt path i
           = lon equator170E + (target - lon equator170E) * (INR i / 50))
     /\ lonAt path 0 = lon equator170E
     /\ lonAt path numPoints = target
     /\ Rabs (target - lon equator170E) <= 180
     /\ (lon equator170E < target ->
         forall i, (i < numPoints)%nat -> lonAt path i < lonAt path (S i))
     /\ (target < lon equator170E ->
         forall i, (i < numPoints)%nat -> lonAt path (S i) < lonAt path i)
     /\ (target = lon equator170E ->
         forall i, (i <= numPoints)%nat -> lonAt path i = lon equator170E)
     /\ (forall i, (i < numPoints)%nat ->
           Rabs (lonAt path (S i) - lonAt path i) <= 3.6).
Proof.
  assert (H1 : valid equator170E)
    by (unfold valid, equator170E; cbn [lat lon]; lra).
  assert (H2 : valid equator170W)
    by (unfold valid, equator170W; cbn [lat lon]; lra).
  assert (H3 : nonpolar equator170E)
    by (unfold nonpolar, equator170E; cbn [lat]; lra).
  assert (H4 : lat equator170W = lat equator170E) by reflexivity.
  split; [exact H1 | ]. split; [exact H2 | ]. split; [exact H3 | ].
  split; [exact H4 | ].
  exact (loxodromic_path_on_parallel equator170E equator170W H1 H2 H3 H4).
Defined.

(** The instance in numbers: the target is 190 degrees, east of the start,
    so the path runs on through 180 to 190 degrees in steps of 0.4. *)
Lemma antimeridian_path_increasing (i : nat) :
  (i < numPoints)%nat ->
  lonAt (loxodromicCoords equator170E equator170W) i
  < lonAt (loxodromicCoords equator170E equator170W) (S i).
Proof.
  intros Hi. rewrite !antimeridian_path_longitudes by lia.
  rewrite S_INR. lra.
Qed.

(** *** The two embeddings of the loop body *)

Lemma IEEE_tan_Fin (x : R) :
  0 < x < PI / 2 -> IEEE.tan (IEEE.Fin x) = IEEE.Fin (tan x).
Proof.
  intros [Hl Hu]. cbn [IEEE.tan].
  destruct (Req_dec_T (cos x) 0) as [H0 | _]; [ | reflexivity ].
  pose proof (cos_gt_0 x) as Hc. lra.
Qed.

Lemma IEEE_log_Fin (x : R) :
  0 < x -> IEEE.log (IEEE.Fin x) = IEEE.Fin (ln x).
Proof.
  intros Hx. cbn [IEEE.log].
  destruct (Rlt_dec 0 x) as [_ | H]; [ reflexivity | contradiction ].
Qed.

Lemma IEEE_radians (x : R) :
  IEEE.div (IEEE.mul (IEEE.Fin x) IEEE.PI) (IEEE.Fin 180)
  = IEEE.Fin (x * PI / 180).
Proof. unfold IEEE.PI. cbn [IEEE.mul]. apply IEEE_div_Fin. lra. Qed.

Lemma IEEE_degrees (x : R) :
  IEEE.div (IEEE.mul (IEEE.Fin x) (IEEE.Fin 180)) IEEE.PI
  = IEEE.Fin (x * 180 / PI).
Proof.
  pose proof PI_RGT_0. unfold IEEE.PI. cbn [IEEE.mul].
  apply IEEE_div_Fin. lra.
Qed.

Lemma IEEE_stretch (l : R) :
  IEEE.add (IEEE.div (IEEE.Fin l) (IEEE.Fin 2)) (IEEE.div IEEE.PI (IEEE.Fin 4))
  = IEEE.Fin (l / 2 + PI / 4).
Proof. unfold IEEE.PI. now rewrite !IEEE_div_Fin by lra. Qed.

Lemma IEEE_adjust (a b : R) :
  (if IEEE.gt (IEEE.abs (IEEE.sub (IEEE.Fin a) (IEEE.Fin b))) IEEE.PI
   then IEEE.add (IEEE.Fin a)
          (if IEEE.gt (IEEE.Fin a) (IEEE.Fin b)
           then IEEE.mul (IEEE.Fin (-2)) IEEE.PI
           else IEEE.mul (IEEE.Fin 2) IEEE.PI)
   else IEEE.Fin a)
  = IEEE.Fin (if Rgt_dec (Math.abs (a - b)) PI
              then a + (if Rgt_dec a b then -2 * PI else 2 * PI)
              else a).
Proof.
  unfold IEEE.gt, IEEE.PI, Math.abs, Rminus.
  cbn [IEEE.sub IEEE.neg IEEE.add IEEE.abs IEEE.lt IEEE.mul].
  destruct (Rlt_dec PI (Rabs (a + - b))) as [H1 | H1];
    destruct (Rgt_dec (Rabs (a + - b)) PI) as [H2 | H2];
    try (exfalso; unfold Rgt in *; lra); [ | reflexivity ].
  destruct (Rlt_dec b a) as [H3 | H3];
    destruct (Rgt_dec a b) as [H4 | H4];
    try (exfalso; unfold Rgt in *; lra); reflexivity.
Qed.

(** X25: away from the poles the special values never come up.  For
    endpoints strictly between the poles every sample of the loop body over
    the numbers with [Infinity] and [NaN] is the finite pair that
    [loxodromicSample] computes over the reals: the same guard is taken and
    no division by zero, no logarithm of zero occurs. *)
Theorem special_values_agree (start end_ : Coordinates) (i : nat) :
  nonpolar start -> nonpolar end_ -> (i <= numPoints)%nat ->
  IEEE.loxodromicSample start end_ i
  = (IEEE.Fin (fst (loxodromicSample start end_ i)),
     IEEE.Fin (snd (loxodromicSample start end_ i))).
Proof.
  intros Hs He Hi. pose proof PI_RGT_0 as Hpi.
  pose proof (sample_index_fraction i Hi) as Hf.
  pose proof (stretch_arg_range _ Hs) as Ha1.
  pose proof (stretch_arg_range _ He) as Ha2.
  pose proof (tan_stretch_pos _ Hs) as Ht1.
  pose proof (tan_stretch_pos _ He) as Ht2.
  assert (Hn : INR numPoints <> 0) by (rewrite INR_numPoints; lra).
  unfold IEEE.loxodromicSample, loxodromicSample. cbv zeta.
  cbn [fst snd]. unfold Math.log.
  rewrite !IEEE_radians, IEEE_adjust, !IEEE_stretch.
  rewrite (IEEE_div_Fin (INR i)) by exact Hn.
  set (f := INR i / INR numPoints) in *.
  set (lat1 := lat start * PI / 180) in *.
  set (lat2 := lat end_ * PI / 180) in *.
  set (lon1 := lon start * PI / 180).
  set (lon2 := if Rgt_dec _ _ then _ else _).
  rewrite !IEEE_tan_Fin by assumption.
  rewrite IEEE_div_Fin by lra.
  rewrite IEEE_log_Fin by (apply Rdiv_lt_0_compat; assumption).
  set (dPsi := ln _).
  assert (Hlat_i : IEEE.add (IEEE.Fin lat1)
                     (IEEE.mul (IEEE.sub (IEEE.Fin lat2) (IEEE.Fin lat1))
                        (IEEE.Fin f))
                   = IEEE.Fin (lat1 + (lat2 - lat1) * f)) by reflexivity.
  rewrite Hlat_i, IEEE_degrees, IEEE_stretch.
  assert (Hai : 0 < (lat1 + (lat2 - lat1) * f) / 2 + PI / 4 < PI / 2).
  { destruct Hf as [Hf0 Hf1]. destruct (Rle_dec lat1 lat2) as [Hle | Hgt].
    - assert (0 <= (lat2 - lat1) * f <= lat2 - lat1) by (split; nra). lra.
    - assert (lat2 - lat1 <= (lat2 - lat1) * f <= 0) by (split; nra). lra. }
  rewrite IEEE_tan_Fin by exact Hai.
  rewrite !IEEE_log_Fin by (apply tan_gt_0; lra).
  cbn [IEEE.abs IEEE.lt]. unfold Math.abs.
  destruct (Rlt_dec (Rabs dPsi) (1 / 10 ^ 10)) as [Hg | Hg].
  - cbn [IEEE.sub IEEE.neg IEEE.add IEEE.mul]. unfold IEEE.PI.
    now rewrite IEEE_div_Fin by lra.
  - assert (Hd : dPsi <> 0).
    { intros H0. apply Hg. rewrite H0, Rabs_R0.
      apply Rdiv_lt_0_compat; [ lra | apply pow_lt; lra ]. }
    cbn [IEEE.sub IEEE.neg IEEE.add IEEE.mul].
    rewrite IEEE_div_Fin by exact Hd. cbn [IEEE.add IEEE.mul].
    unfold IEEE.PI. now rewrite IEEE_div_Fin by lra.
Qed.

Lemma special_values_agree_paris_newYork :
  nonpolar paris /\ nonpolar newYork /\ (25 <= numPoints)%nat
  /\ IEEE.loxodromicSample paris newYork 25
     = (IEEE.Fin (fst (loxodromicSample paris newYork 25)),
        IEEE.Fin (snd (loxodromicSample paris newYork 25))).
Proof.
  assert (H1 : nonpolar paris) by (unfold nonpolar, paris; cbn [lat]; lra).
  assert (H2 : nonpolar newYork)
    by (unfold nonpolar, newYork; cbn [lat]; lra).
  assert (H3 : (25 <= numPoints)%nat) by (unfold numPoints; lia).
  split; [exact H1 | ]. split; [exact H2 | ]. split; [exact H3 | ].
  exact (special_values_agree paris newYork 25 H1 H2 H3).
Defined.

(** ** GlobeVisualization.tsx: dragging, and what the view keeps *)

Lemma onDrag_rotate (st : Globe.State) (dx dy : R) :
  d3.rotate (Globe.projection (Globe.onDrag st dx dy))
  = (fst (fst (d3.rotate (Globe.projection st)))
     + dx * (Globe.sens / Globe.orElse (d3.scale (Globe.projection st)) 1)
       * 100,
     snd (fst (d3.rotate (Globe.projection st)))
     - dy * (Globe.sens / Globe.orElse (d3.scale (Globe.projection st)) 1)
       * 100,
     0).
Proof.
  unfold Globe.onDrag.
  destruct (d3.rotate (Globe.projection st)) as [[r0 r1] r2]. reflexivity.
Qed.





Lemma globe_step_roll (width height : R)
    (geoInterpolate : R * R -> R * R -> R -> R * R)
    (st : Globe.State) (e : Globe.Event) :
  roll (Globe.projection st) = 0 ->
  roll (Globe.projection (Globe.step width height geoInterpolate st e)) = 0.
Proof.
  unfold roll. intros H.
  destruct e as [dx dy | factor p | [[start end_] | ] pathType];
    cbn [Globe.step].
  - now rewrite onDrag_rotate.
  - exact H.
  - cbn [Globe.pointsEffect].
    destruct (d3.rotate (Globe.projection st)) as [[r0 r1] r2].
    cbn. exact H.
  - exact H.
Qed.

(** X14: whatever the user does (drags, zoom gestures, new or cleared
    paths), the globe stays centred in the viewport and is never rolled: the
    projection's translation is (width/2, height/2) and its third rotation
    angle is 0. *)
Theorem globe_stays_centred_and_upright (width height : R)
    (geoInterpolate : R * R -> R * R -> R -> R * R)
    (events : list Globe.Event) :
  let P :=
    Globe.projection (Globe.run width height geoInterpolate events) in
  d3.translate P = (width / 2, height / 2) /\ roll P = 0.
Proof.
  split; [ apply run_translate | ].
  unfold Globe.run.
  assert (Hgen : forall st, roll (Globe.projection st) = 0 ->
            roll (Globe.projection
                    (fold_left (Globe.step width height geoInterpolate)
                       events st)) = 0).
  { induction events as [ | e events IH]; intros st Hst; cbn [fold_left];
      [exact Hst | ].
    apply IH, globe_step_roll, Hst. }
  apply Hgen. reflexivity.
Qed.

(** ** GlobeVisualization.tsx: which endpoints are shown *)

Lemma atan2_le_half_turn (s z : R) :
  0 <= s -> (Math.atan2 s z <= PI / 2 <-> 0 <= z).
Proof.
  intros Hs. pose proof PI_RGT_0 as Hpi. unfold Math.atan2.
  destruct (Rlt_dec 0 z) as [Hpos | Hnpos].
  - pose proof (atan_bound (s / z)). split; intros; lra.
  - destruct (Rlt_dec z 0) as [Hneg | Hnneg].
    + destruct (Rle_dec 0 s) as [_ | Hbad]; [ | exfalso; lra ].
      pose proof (atan_bound (s / z)). split; intros; lra.
    + destruct (Rlt_dec 0 s); [ split; intros; lra | ].
      destruct (Rlt_dec s 0); split; intros; lra.
Qed.

Lemma geoDistance_cosAngle (a b : R * R) :
  d3.geoDistance a b <= PI / 2 <-> 0 <= cosAngle a b.
Proof.
  unfold d3.geoDistance, cosAngle; cbv zeta.
  unfold Math.abs. rewrite cos_Rabs.
  apply atan2_le_half_turn, sqrt_pos.
Qed.

(** X15: a redrawn endpoint is shown exactly when it lies on the
    hemisphere facing the viewer: when the cosine of the angle between its
    direction and the direction of the view centre is not negative. *)
Theorem endpoint_shown_iff_facing (P : d3.GeoProjection) (d : R * R) :
  Globe.display (Globe.redrawEndpoint P d) = Globe.inline
  <-> 0 <= cosAngle d (viewCenter P).
Proof.
  rewrite redrawEndpoint_display, <- geoDistance_cosAngle.
  destruct (Rle_dec (d3.geoDistance d (viewCenter P)) (PI / 2));
    split; intros H; try reflexivity; try assumption;
    try discriminate; contradiction.
Qed.

(** ** MercatorVisualization.tsx: the auto-fit transform *)

Lemma Rmin_plus_Rmax (a b : R) : Rmin a b + Rmax a b = a + b.
Proof. unfold Rmin, Rmax. destruct (Rle_dec a b); ring. Qed.

Lemma Rmax_minus_Rmin (a b : R) : Rmax a b - Rmin a b = Rabs (a - b).
Proof.
  unfold Rmin, Rmax. destruct (Rle_dec a b) as [H | H].
  - rewrite Rabs_left1 by lra. ring.
  - rewrite Rabs_right by lra. ring.
Qed.

(** The pieces of [autoFit]: its zoom factor and where it draws a point. *)
Lemma autoFit_apply (width height : R) (projection : R * R -> R * R)
    (start end_ : Coordinates) (p : R * R) :
  let p1 := projection (lon start, lat start) in
  let p2 := projection (lon end_, lat end_) in
  let s := d3.k (Mercator.autoFit width height projection start end_) in
  s = Math.max 0.8
        (Math.min 18
           (0.9 / Math.max (Rabs (fst p1 - fst p2) / width)
                    (Rabs (snd p1 - snd p2) / height)))
  /\ applyTransform (Mercator.autoFit width height projection start end_) p
     = (width / 2 + s * (fst p - (fst p1 + fst p2) / 2),
        height / 2 + s * (snd p - (snd p1 + snd p2) / 2)).
Proof.
  intros p1 p2 s. subst s.
  unfold Mercator.autoFit, applyTransform, d3.Transform_scale,
    d3.Transform_translate, d3.zoomIdentity; cbv zeta.
  cbn [d3.k d3.x d3.y fst snd]. fold p1 p2.
  unfold Math.min, Math.max.
  rewrite !Rmax_minus_Rmin, !Rmin_plus_Rmax.
  split; [ now rewrite Rmult_1_l | ].
  f_equal; ring.
Qed.


Lemma autoFit_scale_fits (w h dx dy : R) :
  0 < w -> 0 < h -> 0 <= dx <= 1.125 * w -> 0 <= dy <= 1.125 * h ->
  let s := Math.max 0.8 (Math.min 18 (0.9 / Math.max (dx / w) (dy / h))) in
  0 < s /\ s * dx <= 0.9 * w /\ s * dy <= 0.9 * h.
Proof.
  intros Hw Hh [Hx0 Hx1] [Hy0 Hy1] s.
  assert (Hs : 0.8 <= s <= 18) by (apply clamp_in_extent; lra).
  split; [lra | ].
  set (M := Math.max (dx / w) (dy / h)) in *.
  assert (HMx : dx / w <= M) by apply Rmax_l.
  assert (HMy : dy / h <= M) by apply Rmax_r.
  assert (Hxw : dx = dx / w * w) by (field; lra).
  assert (Hyh : dy = dy / h * h) by (field; lra).
  assert (Hrx : dx / w <= 1.125).
  { apply Rmult_le_reg_r with w; [exact Hw | ]. lra. }
  assert (Hry : dy / h <= 1.125).
  { apply Rmult_le_reg_r with h; [exact Hh | ]. lra. }
  assert (HM1 : M <= 1.125) by (unfold M; apply Rmax_lub; assumption).
  assert (Hrx0 : 0 <= dx / w) by (apply Rmult_le_pos; [lra | left; now apply Rinv_0_lt_compat]).
  assert (HM0 : 0 <= M) by lra.
  assert (HsM : s * M <= 0.9).
  { destruct (Req_dec M 0) as [H0 | Hne]; [ rewrite H0; lra | ].
    assert (HMpos : 0 < M) by lra.
    assert (Hq : 0.9 / M * M = 0.9) by (field; exact Hne).
    assert (Hq8 : 0.8 <= 0.9 / M).
    { apply Rmult_le_reg_r with M; [exact HMpos | ]. rewrite Hq. nra. }
    assert (Hsle : s <= 0.9 / M).
    { unfold s, Math.max, Math.min. apply Rmax_lub; [exact Hq8 | ].
      apply Rmin_r. }
    nra. }
  set (rx := dx / w) in *. set (ry := dy / h) in *.
  clearbody rx ry s. split.
  - rewrite Hxw. assert (s * rx <= 0.9) by nra. nra.
  - rewrite Hyh. assert (Hry0 : 0 <= ry).
    { assert (0 <= dy) by lra. clear - H Hyh Hh.
      destruct (Rle_dec 0 ry); [assumption | exfalso; nra]. }
    assert (s * ry <= 0.9) by nra. nra.
Qed.

(** X17: in a viewport of positive size, if the two projected endpoints
    are no further apart than 1.125 times the viewport in each direction
    (so that the zoom floor 0.8 is not in the way), the auto-fit transform
    draws both of them inside the viewport, at least 5 percent of its width
    and height away from its edges. *)
Theorem autoFit_frames_both_endpoints (width height : R)
    (projection : R * R -> R * R) (start end_ : Coordinates) :
  let p1 := projection (lon start, lat start) in
  let p2 := projection (lon end_, lat end_) in
  let t := Mercator.autoFit width height projection start end_ in
  0 < width -> 0 < height ->
  Rabs (fst p1 - fst p2) <= 1.125 * width ->
  Rabs (snd p1 - snd p2) <= 1.125 * height ->
  forall q, q = applyTransform t p1 \/ q = applyTransform t p2 ->
    (0.05 * width <= fst q <= 0.95 * width)
    /\ (0.05 * height <= snd q <= 0.95 * height).
Proof.
  intros p1 p2 t Hw Hh Hdx Hdy q Hq. subst t.
  destruct (autoFit_apply width height projection start end_ p1) as [Hs H1].
  destruct (autoFit_apply width height projection start end_ p2) as [_ H2].
  fold p1 p2 in Hs, H1, H2.
  pose proof (autoFit_scale_fits width height
                (Rabs (fst p1 - fst p2)) (Rabs (snd p1 - snd p2)) Hw Hh
                (conj (Rabs_pos _) Hdx) (conj (Rabs_pos _) Hdy)) as Hfit.
  cbv zeta in Hfit. rewrite <- Hs in Hfit.
  set (s := d3.k (Mercator.autoFit width height projection start end_)) in *.
  destruct Hfit as (Hs0 & Hfx & Hfy).
  assert (Hax : - Rabs (fst p1 - fst p2) <= fst p1 - fst p2
                <= Rabs (fst p1 - fst p2))
    by (unfold Rabs; destruct (Rcase_abs (fst p1 - fst p2)); lra).
  assert (Hay : - Rabs (snd p1 - snd p2) <= snd p1 - snd p2
                <= Rabs (snd p1 - snd p2))
    by (unfold Rabs; destruct (Rcase_abs (snd p1 - snd p2)); lra).
  set (ax := Rabs (fst p1 - fst p2)) in *.
  set (ay := Rabs (snd p1 - snd p2)) in *.
  destruct Hq as [-> | ->]; [rewrite H1 | rewrite H2]; cbn [fst snd];
    split; split; nra.
Qed.

Lemma autoFit_frames_both_endpoints_example :
  let projection := fun p : R * R => p in
  let start := mkCoordinates 10 100 in
  let end_ := mkCoordinates 300 500 in
  let p1 := projection (lon start, lat start) in
  let t := Mercator.autoFit 800 600 projection start end_ in
  0 < 800 /\ 0 < 600
  /\ (0.05 * 800 <= fst (applyTransform t p1) <= 0.95 * 800)
  /\ (0.05 * 600 <= snd (applyTransform t p1) <= 0.95 * 600).
Proof.
  intros projection start end_ p1 t.
  assert (Hw : 0 < 800) by lra. assert (Hh : 0 < 600) by lra.
  split; [exact Hw | ]. split; [exact Hh | ].
  apply (autoFit_frames_both_endpoints 800 600 projection start end_ Hw Hh).
  - cbn. rewrite Rabs_left by lra. lra.
  - cbn. rewrite Rabs_left by lra. lra.
  - left. reflexivity.
Defined.

(** ** App.tsx and geminiService.ts: the outcome of a request *)

(** X18: a request with an empty start or end name is turned down at
    once: no geocoding call is started, the error asks for both locations,
    and the displayed points, the loading flag, the view mode and the path
    type stay as they were. *)
Theorem handleVisualize_empty_name (st : App.State) (from to : string)
    (replyFrom replyTo : App.Reply) (firstWins : bool) :
  App.falsy from = true \/ App.falsy to = true ->
  let r := App.handleVisualize st from to replyFrom replyTo firstWins in
  App.awaiting r = None
  /\ App.finished r
     = App.mkState (App.points st) (App.isLoading st)
         (Some "Please enter both a start and end location."%string)
         (App.viewMode st) (App.pathType st).
Proof.
  intros H r. subst r. unfold App.handleVisualize, App.handleVisualize_begin.
  assert (Hor : (App.falsy from || App.falsy to)%bool = true).
  { destruct H as [-> | ->]; [reflexivity | apply orb_true_r]. }
  rewrite Hor. split; reflexivity.
Qed.

Lemma handleVisualize_empty_name_example :
  let shown :=
    Some (mkLocationPoint "Paris" paris, mkLocationPoint "New York" newYork) in
  let st := App.mkState shown false None App.map loxodromic in
  let r := App.handleVisualize st "" "Rome" App.throws App.throws true in
  (App.falsy "" = true \/ App.falsy "Rome" = true)
  /\ App.awaiting r = None
  /\ App.finished r
     = App.mkState shown false
         (Some "Please enter both a start and end location."%string)
         App.map loxodromic.
Proof.
  intros shown st r. split; [left; reflexivity | ].
  exact (handleVisualize_empty_name st "" "Rome" App.throws App.throws true
           (or_introl eq_refl)).
Defined.

(** X19: a request with two non-empty names ends with points displayed
    exactly when both replies carry a numeric [lat] and a numeric [lon]; the
    points then hold the two names and the coordinates as replied (no range
    check is made), the error is cleared and the loading flag is down. *)
Theorem handleVisualize_success (st : App.State) (from to : string)
    (replyFrom replyTo : App.Reply) (firstWins : bool) :
  App.falsy from = false -> App.falsy to = false ->
  let r := App.handleVisualize st from to replyFrom replyTo firstWins in
  (App.points (App.finished r) <> None <->
   numeric replyFrom /\ numeric replyTo)
  /\ (forall la lo la' lo',
        replyFrom = App.parsed (App.number la) (App.number lo) ->
        replyTo = App.parsed (App.number la') (App.number lo') ->
        App.finished r
        = App.mkState
            (Some (mkLocationPoint from (mkCoordinates la lo),
                   mkLocationPoint to (mkCoordinates la' lo')))
            false None (App.viewMode st) (App.pathType st)).
Proof.
  intros Hfrom Hto r. subst r.
  unfold App.handleVisualize, App.handleVisualize_begin.
  rewrite Hfrom, Hto. cbn [orb App.finished]. split.
  - destruct replyFrom as [ | | [la | ] [lo | ]];
      destruct replyTo as [ | | [la' | ] [lo' | ]];
      destruct firstWins; cbn; split;
      try (intros H; exfalso; now apply H);
      try (intros [H1 H2]; contradiction);
      try (intros _; discriminate);
      try (intros _; split; exact I).
  - intros la lo la' lo' -> ->. reflexivity.
Qed.

Lemma handleVisualize_success_example :
  let st := App.mkState None false (Some "old"%string) App.globe loxodromic in
  let r := App.handleVisualize st "A" "B"
             (App.parsed (App.number 1000) (App.number 2))
             (App.parsed (App.number 3) (App.number 4)) false in
  App.falsy "A" = false /\ App.falsy "B" = false
  /\ App.finished r
     = App.mkState
         (Some (mkLocationPoint "A" (mkCoordinates 1000 2),
                mkLocationPoint "B" (mkCoordinates 3 4)))
         false None App.globe loxodromic.
Proof.
  intros st r. split; [reflexivity | ]. split; [reflexivity | ].
  exact (proj2 (handleVisualize_success st "A" "B"
                  (App.parsed (App.number 1000) (App.number 2))
                  (App.parsed (App.number 3) (App.number 4)) false
                  eq_refl eq_refl)
           1000 2 3 4 eq_refl eq_refl).
Defined.

(** X20: when a request with two non-empty names fails, the error shown
    is "Failed to fetch location data: " followed by the message of the
    lookup that threw (the one that rejected first when both threw) and,
    only when neither threw, by the not-found message: a thrown lookup takes
    precedence over a missing result.  The fallback "An unknown error
    occurred." is never shown. *)
Theorem handleVisualize_failure_message (st : App.State) (from to : string)
    (replyFrom replyTo : App.Reply) (firstWins : bool) :
  App.falsy from = false -> App.falsy to = false ->
  ~ (numeric replyFrom /\ numeric replyTo) ->
  let r := App.handleVisualize st from to replyFrom replyTo firstWins in
  App.error (App.finished r)
  = Some (failurePrefix
          ++ failureDetail from to replyFrom replyTo firstWins)%string
  /\ App.error (App.finished r)
     <> Some (failurePrefix ++ unknownMessage)%string.
Proof.
  intros Hfrom Hto Hfail r. subst r.
  unfold App.handleVisualize, App.handleVisualize_begin.
  rewrite Hfrom, Hto. cbn [orb App.finished].
  destruct replyFrom as [ | | [la | ] [lo | ]];
    destruct replyTo as [ | | [la' | ] [lo' | ]];
    destruct firstWins; cbn;
    try (exfalso; apply Hfail; split; exact I);
    (split; [ reflexivity | intros H; discriminate H ]).
Qed.

Lemma handleVisualize_failure_message_example :
  let st := App.mkState None false None App.globe orthodromic in
  let r := App.handleVisualize st "Paris" "Atlantis"
             App.emptyText App.throws true in
  App.falsy "Paris" = false /\ App.falsy "Atlantis" = false
  /\ ~ (numeric App.emptyText /\ numeric App.throws)
  /\ App.error (App.finished r)
     = Some (failurePrefix ++ retrieveMessage "Atlantis")%string.
Proof.
  intros st r.
  assert (H : ~ (numeric App.emptyText /\ numeric App.throws))
    by (intros [H _]; exact H).
  split; [reflexivity | ]. split; [reflexivity | ]. split; [exact H | ].
  exact (proj1 (handleVisualize_failure_message st "Paris" "Atlantis"
                  App.emptyText App.throws true eq_refl eq_refl H)).
Defined.

(** X21: no request touches the view mode or the path type; while the
    geocoding calls are awaited the loading flag is up and the error is
    cleared, and once the request has finished the loading flag is down
    again. *)
Theorem handleVisualize_frame (st : App.State) (from to : string)
    (replyFrom replyTo : App.Reply) (firstWins : bool) :
  let r := App.handleVisualize st from to replyFrom replyTo firstWins in
  App.viewMode (App.finished r) = App.viewMode st
  /\ App.pathType (App.finished r) = App.pathType st
  /\ (forall s, App.awaiting r = Some s ->
        App.isLoading s = true /\ App.error s = None
        /\ App.viewMode s = App.viewMode st
        /\ App.pathType s = App.pathType st
        /\ App.isLoading (App.finished r) = false).
Proof.
  intros r. subst r. unfold App.handleVisualize, App.handleVisualize_begin.
  destruct (App.falsy from || App.falsy to)%bool.
  - cbn. split; [reflexivity | split; [reflexivity | ]].
    intros s0 Hs0. discriminate Hs0.
  - cbn [App.awaiting App.finished].
    destruct replyFrom as [ | | [la | ] [lo | ]];
      destruct replyTo as [ | | [la' | ] [lo' | ]];
      destruct firstWins; cbn;
      (split; [reflexivity | split; [reflexivity | ]]);
      intros s0 Hs0; injection Hs0 as <-; repeat split.
Qed.

Lemma handleVisualize_frame_example :
  let st := App.mkState None false (Some "old"%string) App.map loxodromic in
  let r := App.handleVisualize st "A" "B" App.throws App.emptyText true in
  exists s, App.awaiting r = Some s
    /\ App.isLoading s = true /\ App.error s = None
    /\ App.viewMode s = App.map /\ App.pathType s = loxodromic
    /\ App.isLoading (App.finished r) = false.
Proof.
  intros st r.
  exists (App.setPoints (App.setError (App.setIsLoading st true) None) None).
  split; [reflexivity | ].
  exact (proj2 (proj2 (handleVisualize_frame st "A" "B" App.throws
                         App.emptyText true)) _ eq_refl).
Defined.

Lemma loxodromic_distance_nonneg (p1 p2 : Coordinates) :
  0 <= calculateLoxodromicDistance p1 p2.
Proof.
  unfold calculateLoxodromicDistance; cbv zeta.
  apply Rmult_le_pos; [apply sqrt_pos | lra].
Qed.

(** X22: the distance [App] hands to the control panel is present exactly
    when points are displayed, and for the rhumb-line path type it is never
    negative. *)
Theorem displayed_distance_range (st : App.State) :
  match App.distance st with
  | Some d =>
      App.points st <> None /\ (App.pathType st = loxodromic -> 0 <= d)
  | None => App.points st = None
  end.
Proof.
  unfold App.distance. destruct (App.points st) as [[a b] | ].
  - split; [discriminate | ].
    destruct (App.pathType st); intros H;
      [ discriminate H | apply loxodromic_distance_nonneg ].
  - reflexivity.
Qed.

Lemma displayed_distance_range_example :
  let st :=
    App.mkState
      (Some (mkLocationPoint "Paris" paris, mkLocationPoint "New York" newYork))
      false None App.globe loxodromic in
  App.pathType st = loxodromic
  /\ 0 <= calculateLoxodromicDistance paris newYork.
Proof.
  intros st. split; [reflexivity | ].
  pose proof (displayed_distance_range st) as H.
  cbn in H. destruct H as (_ & H0). exact (H0 eq_refl).
Defined.

(** ** GlobeVisualization.tsx: where a new path leaves the globe *)

Lemma viewCenter_after_points (width height : R)
    (geoInterpolate : R * R -> R * R -> R -> R * R)
    (st : Globe.State) (start end_ : Coordinates) (pathType : PathType) :
  viewCenter
    (Globe.projection
       (Globe.step width height geoInterpolate st
          (Globe.Points (Some (start, end_)) pathType)))
  = geoInterpolate (lon start, lat start) (lon end_, lat end_) 0.5.
Proof.
  cbn [Globe.step Globe.pointsEffect].
  destruct (d3.rotate (Globe.projection st)) as [[r0 r1] r2].
  cbn. unfold viewCenter. cbn. rewrite !Ropp_involutive.
  now destruct (geoInterpolate (lon start, lat start) (lon end_, lat end_) 0.5).
Qed.

(** X23: once the rotation started by a new path has run, the globe is
    centred on the midpoint of the path (the point [d3.geoInterpolate] gives
    at 0.5): that point is the view centre, and a marker placed on it is
    shown and drawn at the centre of the viewport. *)
Theorem new_path_is_centred (width height : R)
    (geoInterpolate : R * R -> R * R -> R -> R * R)
    (events : list Globe.Event) (start end_ : Coordinates)
    (pathType : PathType) :
  let st := Globe.run width height geoInterpolate events in
  let P :=
    Globe.projection
      (Globe.step width height geoInterpolate st
         (Globe.Points (Some (start, end_)) pathType)) in
  let mid := geoInterpolate (lon start, lat start) (lon end_, lat end_) 0.5 in
  viewCenter P = mid
  /\ Globe.display (Globe.redrawEndpoint P mid) = Globe.inline
  /\ Globe.cx (Globe.redrawEndpoint P mid) = width / 2
  /\ Globe.cy (Globe.redrawEndpoint P mid) = height / 2.
Proof.
  intros st P mid. pose proof PI_RGT_0 as Hpi.
  assert (Hc : viewCenter P = mid) by apply viewCenter_after_points.
  assert (H0 : d3.geoDistance mid (viewCenter P) = 0)
    by (rewrite Hc; apply geoDistance_self).
  assert (Htr : d3.translate P = (width / 2, height / 2)).
  { unfold P. rewrite step_translate. apply run_translate. }
  split; [exact Hc | split ].
  - rewrite redrawEndpoint_display, H0.
    destruct (Rle_dec 0 (PI / 2)) as [_ | Hn]; [reflexivity | exfalso; lra].
  - pose proof (redrawEndpoint_position P mid) as Hpos.
    rewrite (project_centered P mid H0), Htr in Hpos.
    now inversion Hpos.
Qed.

(** ** Witnesses for the meridian and the parallel *)

Lemma meridian_distances_agree_south60 :
  valid south60 /\ valid (mkCoordinates 60 0)
  /\ lon south60 = lon (mkCoordinates 60 0)
  /\ calculateLoxodromicDistance south60 (mkCoordinates 60 0)
     = calculateOrthodromicDistance south60 (mkCoordinates 60 0).
Proof.
  assert (H1 : valid south60)
    by (unfold valid, south60; cbn [lat lon]; lra).
  assert (H2 : valid (mkCoordinates 60 0))
    by (unfold valid; cbn [lat lon]; lra).
  split; [exact H1 | ]. split; [exact H2 | ]. split; [reflexivity | ].
  exact (meridian_distances_agree south60 (mkCoordinates 60 0) H1 H2 eq_refl).
Defined.

Lemma parallel_distances_ordered_antimeridian :
  valid equator170E /\ valid equator170W /\ nonpolar equator170E
  /\ lat equator170W = lat equator170E
  /\ calculateOrthodromicDistance equator170E equator170W
     <= calculateLoxodromicDistance equator170E equator170W.
Proof.
  assert (H1 : valid equator170E)
    by (unfold valid, equator170E; cbn [lat lon]; lra).
  assert (H2 : valid equator170W)
    by (unfold valid, equator170W; cbn [lat lon]; lra).
  assert (H3 : nonpolar equator170E)
    by (unfold nonpolar, equator170E; cbn [lat]; lra).
  split; [exact H1 | ]. split; [exact H2 | ]. split; [exact H3 | ].
  split; [reflexivity | ].
  exact (parallel_distances_ordered equator170E equator170W H1 H2 H3 eq_refl).
Defined.
